(** * Beta-plane barotropic vorticity model: a shallow embedding

    Source: [src/barotropic_vorticity/baro_vort.py], a Python 2 script (it
    uses the [print] statement), so [/] between two [int]s is floor division.

    Conventions of the embedding.
    - numpy [float64] values are real numbers ([R]) and [complex128] values
      are pairs of reals; rounding is not modelled.  A real cannot hold
      Inf or NaN: where the program divides by 0.0 or overflows, the
      real-valued model no longer describes it.  That happens in [nu] for
      [N < 3] or [tau = 0], and in the timestep when [ALLOW_SPEEDUP] lets
      it grow without bound; the module [Binary64] follows the second
      case in IEEE binary64 arithmetic.
    - A two-dimensional numpy array of shape (n, n) is its index function
      [fun i j => a[i, j]]; only the entries with [i, j < n] are meaningful,
      and operations that need the shape ([np.max], the transforms) take it
      as an argument.  One-dimensional arrays ([k], [l]) are lists.
    - numpy broadcasting of a scalar or of a real array against a complex
      array is written out as numpy does it: the real operand is promoted
      to a complex number with imaginary part zero.
    - The module-level globals mutated by [integrate] are the fields of
      [state]; [integrate] takes the state and returns the new one. *)

From Stdlib Require Import Reals Lra Lia ZArith List String.
From Stdlib Require PrimFloat.
From stdpp Require Import base strings gmap.
Import ListNotations.

Open Scope R_scope.

(** ** Complex numbers *)

Definition C : Type := (R * R)%type.

Definition Re (a : C) : R := fst a.
Definition Im (a : C) : R := snd a.

Definition RtoC (x : R) : C := (x, 0).
Definition C0 : C := RtoC 0.
Definition C1 : C := RtoC 1.
(** Python's [1j]. *)
Definition Ci : C := (0, 1).

Definition Cadd (a b : C) : C := (Re a + Re b, Im a + Im b).
Definition Copp (a : C) : C := (- Re a, - Im a).
Definition Csub (a b : C) : C := (Re a - Re b, Im a - Im b).
Definition Cmul (a b : C) : C :=
  (Re a * Re b - Im a * Im b, Re a * Im b + Im a * Re b).
Definition Cconj (a : C) : C := (Re a, - Im a).
(** [np.abs] of a complex number. *)
Definition Cabs (a : C) : R := sqrt (Re a * Re a + Im a * Im a).
(** [exp(1j * t)]. *)
Definition cis (t : R) : C := (cos t, sin t).

(** ** Arrays *)

Definition cfield : Type := nat -> nat -> C.
Definition rfield : Type := nat -> nat -> R.

(** Two arrays of shape (m, m) with the same entries. *)
Definition feq (m : nat) (a b : cfield) : Prop :=
  forall i j, (i < m)%nat -> (j < m)%nat -> a i j = b i j.

Definition fzero : cfield := fun _ _ => C0.

(** The entries of an array of shape (m, m), row by row. *)
Definition flat (m : nat) (a : rfield) : list R :=
  flat_map (fun i => map (a i) (seq 0 m)) (seq 0 m).

(** [np.max(a)].  numpy raises [ValueError] on an empty array; an array of
    shape (0, 0) never reaches [integrate], since the set-up code raises
    for [N = 0] (see [setup]). *)
Definition np_max (m : nat) (a : rfield) : R :=
  match flat m a with
  | [] => 0
  | x :: xs => fold_left Rmax xs x
  end.

(** [np.arange(lo, hi)] on integers. *)
Definition arange (lo hi : Z) : list Z :=
  map (fun i => (lo + Z.of_nat i)%Z) (seq 0 (Z.to_nat (hi - lo))).

(** ** The discrete Fourier transform of numpy

    [numpy.fft] as documented: [fft] computes
    [A_k = sum_{j<m} a_j exp(-2 pi i j k / m)], [ifft] computes
    [a_j = (1/m) sum_{k<m} A_k exp(2 pi i j k / m)], and [fftn]/[ifftn]
    over [axes=(0,1)] apply the one-dimensional transform along the last
    axis and then along the first.  [fftshift] rolls every axis by
    [m // 2]: [fftshift(a)[i] = a[(i - m // 2) mod m]]. *)

Fixpoint csum (m : nat) (f : nat -> C) : C :=
  match m with
  | O => C0
  | S m' => Cadd (csum m' f) (f m')
  end.

Definition fft (m : nat) (a : nat -> C) : nat -> C :=
  fun q => csum m (fun j => Cmul (a j) (cis (- (2 * PI * INR (j * q) / INR m)))).

Definition ifft (m : nat) (a : nat -> C) : nat -> C :=
  fun j =>
    Cmul (RtoC (/ INR m))
         (csum m (fun q => Cmul (a q) (cis (2 * PI * INR (j * q) / INR m)))).

Definition along_axis1 (t : (nat -> C) -> nat -> C) (a : cfield) : cfield :=
  fun i => t (a i).
Definition along_axis0 (t : (nat -> C) -> nat -> C) (a : cfield) : cfield :=
  fun i j => t (fun r => a r j) i.

Definition fftn (m : nat) (a : cfield) : cfield :=
  along_axis0 (fft m) (along_axis1 (fft m) a).
Definition ifftn (m : nat) (a : cfield) : cfield :=
  along_axis0 (ifft m) (along_axis1 (ifft m) a).

Definition roll_index (m i : nat) : nat := ((i + (m - m / 2)) mod m)%nat.

Definition fftshift (m : nat) (a : cfield) : cfield :=
  fun i j => a (roll_index m i) (roll_index m j).

(** ** Model parameters (the [### PARAMETERS] block) *)

Record params : Type := {
  N : Z;                   (* numerical resolution *)
  IC : string;             (* name of the initial condition *)
  AA_FAC : R;              (* anti-alias factor *)
  ubar : R;                (* background zonal velocity *)
  beta : R;                (* beta-plane f = f0 + beta y *)
  tau : R;                 (* coefficient of dissipation *)
  ALLOW_SPEEDUP : bool;
  SPEEDUP_AT_C : R;
  SLOWDN_AT_C : R
}.

(** The values in the source; [AA_FAC = N / 6] is an integer division. *)
Definition source_params : params := {|
  N := 128;
  IC := "spot";
  AA_FAC := IZR (128 / 6);
  ubar := 0;
  beta := 17 / 10;
  tau := 1 / 10;
  ALLOW_SPEEDUP := false;
  SPEEDUP_AT_C := 6 / 10;
  SLOWDN_AT_C := 8 / 10
|}.

(** Other configurations, used as concrete inputs below. *)
Definition set_AA_FAC (a : R) (p : params) : params := {|
  N := N p; IC := IC p; AA_FAC := a; ubar := ubar p; beta := beta p;
  tau := tau p; ALLOW_SPEEDUP := ALLOW_SPEEDUP p;
  SPEEDUP_AT_C := SPEEDUP_AT_C p; SLOWDN_AT_C := SLOWDN_AT_C p
|}.

Definition set_IC (name : string) (p : params) : params := {|
  N := N p; IC := name; AA_FAC := AA_FAC p; ubar := ubar p; beta := beta p;
  tau := tau p; ALLOW_SPEEDUP := ALLOW_SPEEDUP p;
  SPEEDUP_AT_C := SPEEDUP_AT_C p; SLOWDN_AT_C := SLOWDN_AT_C p
|}.

Definition set_N (m : Z) (p : params) : params := {|
  N := m; IC := IC p; AA_FAC := AA_FAC p; ubar := ubar p; beta := beta p;
  tau := tau p; ALLOW_SPEEDUP := ALLOW_SPEEDUP p;
  SPEEDUP_AT_C := SPEEDUP_AT_C p; SLOWDN_AT_C := SLOWDN_AT_C p
|}.

(** ** Simulation state: the globals of [integrate] *)

Record state : Type := {
  _zt : cfield;   (* filtered vorticity one step behind *)
  zt : cfield;    (* current vorticity, spectral *)
  zt_ : cfield;   (* provisional leapfrog result *)
  z : cfield;     (* vorticity in physical space *)
  dt : R          (* current timestep *)
}.

(** The fluid at rest, with timestep [t]. *)
Definition at_rest (t : R) : state :=
  {| _zt := fzero; zt := fzero; zt_ := fzero; z := fzero; dt := t |}.

(** Every field equal to the constant [c], with timestep [t]. *)
Definition uniform (c : C) (t : R) : state :=
  {| _zt := fun _ _ => c; zt := fun _ _ => c; zt_ := fun _ _ => c;
     z := fun _ _ => c; dt := t |}.

(** Exceptions that can end the set-up code. *)
Inductive exn : Type :=
  | ZeroDivisionError
  | ValueError
  | NameError (name : string).

(** ** Functions that do not depend on the grid *)

Definition raw_filter (prev curr new : cfield) (nu : R) : cfield :=
  fun i j =>
    Cadd (curr i j)
         (Cmul (RtoC nu)
               (Cadd (Csub (new i j) (Cmul (RtoC 2) (curr i j))) (prev i j))).

(** The default value of [raw_filter]'s argument [nu]. *)
Definition raw_filter_nu : R := 1 / 100.

Definition courant_number (m : nat) (psix psiy : cfield) (dx dt : R) : R :=
  let maxu := np_max m (fun i j => Cabs (psiy i j)) in
  let maxv := np_max m (fun i j => Cabs (psix i j)) in
  let maxvel := maxu + maxv in
  maxvel * dt / dx.

Definition leapfrog (phi f : cfield) (dt : R) : cfield :=
  fun i j => Cadd (phi i j) (Cmul (RtoC (2 * dt)) (f i j)).

Definition ft (m : nat) (phi : cfield) : cfield := fftshift m (fftn m phi).
Definition ift (m : nat) (psi : cfield) : cfield := ifftn m (fftshift m psi).

Definition enstrophy (zt : cfield) : rfield :=
  fun i j => Re (Cmul (Cmul (RtoC (1 / 2)) (zt i j)) (Cconj (zt i j))).

Section Model.

Variable p : params.
(** The values drawn by [np.random.random(z.shape)]. *)
Variable random_sample : rfield.

(** *** Physical domain *)

Definition domain : R := 1.
Definition n : Z := N p.
Definition nx : Z := n.
Definition ny : Z := n.
(** The shape of every field is (nn, nn). *)
Definition nn : nat := Z.to_nat n.
Definition dx : R := domain / IZR nx.
Definition dy : R := domain / IZR ny.
(** The value the global [dt] is given by the set-up code. *)
Definition dt_setup : R := 4 / 10 * 16 / IZR nx.

(** *** Spectral domain *)

Definition dk : R := 2 * PI / domain.
Definition k : list R := map (fun w => IZR w * dk) (arange (- n / 2) (n / 2)).
Definition l : list R := map (fun w => IZR w * dk) (arange (- n / 2) (n / 2)).

(** [kk, ll = np.meshgrid(k, l)]: [kk[i, j] = k[j]] and [ll[i, j] = l[i]]. *)
Definition kk : rfield := fun i j => nth j k 0.
Definition ll : rfield := fun i j => nth i l 0.

Definition ksq_raw : rfield := fun i j => kk i j ^ 2 + ll i j ^ 2.
(** [ksq[ksq == 0] = 1.0] *)
Definition ksq : rfield :=
  fun i j => if Req_dec_T (ksq_raw i j) 0 then 1 else ksq_raw i j.
Definition rksq : rfield := fun i j => 1 / ksq i j.

Definition ik : cfield := fun i j => Cmul Ci (RtoC (kk i j)).
Definition il : cfield := fun i j => Cmul Ci (RtoC (ll i j)).

(** *** Dissipation and anti-aliasing *)

(** For [N < 3] ([n / 3 = 0]) or [tau = 0] numpy divides by 0.0 and [nu] is
    Inf, which makes [del4] 0.0 on every cell; the real-valued [nu] below
    describes the program for [N >= 3] and [tau <> 0]. *)
Definition nu : R := (domain / (IZR (n / 3) * 2 * PI)) ^ 4 / tau p.
Definition del4 : rfield := fun i j => 1 / (1 + nu * ksq i j ^ 2 * dt_setup).
Definition k_max : R := AA_FAC p * 2 * dk.

(** *** Field operators *)

Definition grad (phit : cfield) : cfield * cfield :=
  let phixt : cfield := fun i j => Cmul (ik i j) (phit i j) in
  let phiyt : cfield := fun i j => Cmul (il i j) (phit i j) in
  (phixt, phiyt).

Definition velocity (psit : cfield) : cfield * cfield :=
  let '(psixt, psiyt) := grad psit in
  let psix := ift nn psixt in
  let psiy := ift nn psiyt in
  (psiy, fun i j => Copp (psix i j)).

(** [phit[(np.abs(kk) >= k_max) | (np.abs(ll) >= k_max)] = 0.0]; the array
    is updated in place, the model returns the updated array. *)
Definition aa_mask (k_max : R) (i j : nat) : bool :=
  (if Rge_dec (Rabs (kk i j)) k_max then true else false)
  || (if Rge_dec (Rabs (ll i j)) k_max then true else false).

Definition anti_alias (phit : cfield) (k_max : R) : cfield :=
  fun i j => if aa_mask k_max i j then C0 else phit i j.

(** *** One time step *)

(** The timestep is a real here, so [1.1 * dt] never overflows; see
    [Binary64] for the program's binary64 timestep. *)
Definition integrate (s : state) : R * state :=
  let psit : cfield := fun i j => Cmul (RtoC (- rksq i j)) (zt s i j) in
  let '(psixt, psiyt) := grad psit in
  let '(zxt, zyt) := grad (zt s) in
  let z' := ift nn (zt s) in
  let psix := ift nn psixt in
  let psiy := ift nn psiyt in
  let zx := ift nn zxt in
  let zy := ift nn zyt in
  let c := courant_number nn psix psiy dx (dt s) in
  let dt' :=
    if Rgt_dec c (SLOWDN_AT_C p) then 9 / 10 * dt s
    else if (if Rlt_dec c (SPEEDUP_AT_C p) then true else false)
            && ALLOW_SPEEDUP p
         then 11 / 10 * dt s
         else dt s in
  let jac : cfield := fun i j =>
    Cadd (Csub (Cmul (psix i j) (zy i j)) (Cmul (psiy i j) (zx i j)))
         (Cmul (RtoC (ubar p)) (zx i j)) in
  let jact := ft nn jac in
  let jact := anti_alias jact k_max in
  let rhs : cfield := fun i j =>
    Csub (Copp (jact i j)) (Cmul (RtoC (beta p)) (psixt i j)) in
  let zt_' := leapfrog (_zt s) rhs dt' in
  let zt_' : cfield := fun i j => Cmul (zt_' i j) (RtoC (del4 i j)) in
  let _zt' := raw_filter (_zt s) (zt s) zt_' raw_filter_nu in
  (c, {| _zt := _zt'; zt := zt_'; zt_ := zt_'; z := z'; dt := dt' |}).

(** The intermediate quantities of one step from state [s], under the
    names the specification gives them, for stating what [integrate]
    computes. *)
Definition step_psi_hat (s : state) : cfield :=
  fun i j => Cmul (RtoC (- rksq i j)) (zt s i j).
Definition step_psix (s : state) : cfield :=
  ift nn (fun i j => Cmul (ik i j) (step_psi_hat s i j)).
Definition step_psiy (s : state) : cfield :=
  ift nn (fun i j => Cmul (il i j) (step_psi_hat s i j)).
Definition step_zx (s : state) : cfield :=
  ift nn (fun i j => Cmul (ik i j) (zt s i j)).
Definition step_zy (s : state) : cfield :=
  ift nn (fun i j => Cmul (il i j) (zt s i j)).
Definition step_jacobian (s : state) : cfield :=
  fun i j =>
    Cadd (Csub (Cmul (step_psix s i j) (step_zy s i j))
               (Cmul (step_psiy s i j) (step_zx s i j)))
         (Cmul (RtoC (ubar p)) (step_zx s i j)).
Definition step_rhs (s : state) : cfield :=
  fun i j =>
    Csub (Copp (anti_alias (ft nn (step_jacobian s)) k_max i j))
         (Cmul (RtoC (beta p)) (Cmul (ik i j) (step_psi_hat s i j))).
Definition step_courant (s : state) : R :=
  (np_max nn (fun i j => Cabs (step_psix s i j))
   + np_max nn (fun i j => Cabs (step_psiy s i j))) * dt s / dx.

(** The state with every field identically zero on the grid. *)
Definition quiescent (s : state) : Prop :=
  feq nn (_zt s) fzero /\ feq nn (zt s) fzero
  /\ feq nn (zt_ s) fzero /\ feq nn (z s) fzero.

(** *** Initial conditions and their registry *)

Definition random_ic (z : cfield) : cfield :=
  fun i j => RtoC (2 * random_sample i j - 1).

Definition spot_ic (z : cfield) : cfield :=
  let d : Z := (n / 4)%Z in
  fun i j =>
    let ppxy := (Z.abs (d - Z.of_nat i) ^ 2 + Z.abs (d * 2 - Z.of_nat j) ^ 2)%Z in
    let dist := sqrt (IZR ppxy) in
    if Rlt_dec dist (IZR d)
    then RtoC (2 * cos (1 / 2 * PI * (IZR d - dist) / IZR d + 1 / 2 * PI) ^ 2)
    else z i j.

(** The decorator [initial(name)] stores the function under [name]. *)
Definition initial (name : string) (fn : cfield -> cfield)
    (ics : gmap string (cfield -> cfield)) : gmap string (cfield -> cfield) :=
  <[name := fn]> ics.

Definition ICS : gmap string (cfield -> cfield) :=
  initial "spot" spot_ic (initial "random" random_ic ∅).

(** *** Set-up and the driver loop *)

(** The set-up code up to the initial transform.  [dx = domain / nx] raises
    [ZeroDivisionError] for [N = 0]; allocating [z] raises [ValueError] for
    a negative shape; the name [Error] in [raise Error(...)] is not defined
    anywhere, so reaching that line raises [NameError]. *)
Definition setup : exn + state :=
  if (nx =? 0)%Z then inl ZeroDivisionError
  else if (nx <? 0)%Z then inl ValueError
  else
    match ICS !! IC p with
    | None => inl (NameError "Error")
    | Some ic_fn =>
        let z0 := ic_fn fzero in
        let zt0 := ft nn z0 in
        inr {| _zt := zt0; zt := zt0; zt_ := zt0; z := z0; dt := dt_setup |}
    end.

(** [steps t s]: the Courant numbers returned by [t] consecutive calls of
    [integrate] from [s], most recent first, and the state they leave. *)
Fixpoint steps (t : nat) (s : state) : list R * state :=
  match t with
  | O => ([], s)
  | S t' =>
      let '(cs, s') := steps t' s in
      let '(c, s'') := integrate s' in
      (c :: cs, s'')
  end.

(** The script run for [t] iterations of its [while True] loop: either the
    exception that ended it, or the calls of [integrate] made so far. *)
Definition run (t : nat) : exn + (list R * state) :=
  match setup with
  | inl e => inl e
  | inr s => inr (steps t s)
  end.

End Model.

(** ** The scalar path of a step at rest, in binary64

    Python's [float] and numpy's [float64] are IEEE binary64 numbers, the
    kernel's [PrimFloat.float].  While every field is identically 0.0, all
    arrays a call of [integrate] computes are arrays of zeros (a transform
    of zeros is a sum of products of zeros with finite factors), so
    [np.max] returns 0.0 for both velocities and the right-hand side of
    every coefficient is [-0.0 - beta * 0.0].  What is left of the call is
    its scalar path: the Courant number of lines 83-84, the timestep
    adaptation of lines 166-171 and the leapfrog value of one coefficient
    (line 88), computed below exactly as the program computes them. *)
Module Binary64.
Import PrimFloat.
#[local] Set Warnings "-inexact-float".

Definition courant_number64 (maxu maxv dx dt : float) : float :=
  let maxvel := (maxu + maxv)%float in
  (maxvel * dt / dx)%float.

Definition adapt64 (allow_speedup : bool) (c dt : float) : float :=
  if (0.8 <? c)%float then (0.9 * dt)%float
  else if (c <? 0.6)%float && allow_speedup then (1.1 * dt)%float
  else dt.

Definition leapfrog64 (phi f dt : float) : float :=
  (phi + 2.0 * dt * f)%float.

(** One call from rest with timestep [dt]: the Courant number it
    returns, the leapfrog value of a coefficient, and the timestep it
    leaves. *)
Definition rest_step64 (allow_speedup : bool) (beta dx dt : float)
  : float * float * float :=
  let c := courant_number64 0%float 0%float dx dt in
  let dt' := adapt64 allow_speedup c dt in
  let rhs := (- 0 - beta * 0)%float in
  (c, leapfrog64 0%float rhs dt', dt').

(** [t] consecutive calls, most recent first. *)
Fixpoint rest_calls64 (allow_speedup : bool) (beta dx : float) (t : nat)
    (dt : float) : list (float * float) * float :=
  match t with
  | O => ([], dt)
  | S t' =>
      let '(calls, d) := rest_calls64 allow_speedup beta dx t' dt in
      let '(c, zl, d') := rest_step64 allow_speedup beta dx d in
      ((c, zl) :: calls, d')
  end.

(** The source's [dx = domain / nx], [dt = 0.4 * 16.0 / nx] and [beta]
    for [N = 128]. *)
Definition dx_source : float := (1.0 / 128)%float.
Definition dt_source : float := (0.4 * 16.0 / 128)%float.
Definition beta_source : float := 1.7%float.

(** A call that returned Courant number 0 and left the coefficient 0. *)
Definition still (call : float * float) : bool :=
  is_zero (fst call) && is_zero (snd call).

End Binary64.

(** * Complex arithmetic *)

Lemma C_eq (a b : C) : Re a = Re b -> Im a = Im b -> a = b.
Proof. destruct a, b; simpl; intros -> ->; reflexivity. Qed.

Ltac csolve :=
  intros; apply C_eq;
  unfold Cadd, Csub, Cmul, Copp, Cconj, RtoC, C0, C1, Ci, Re, Im in *;
  simpl in *; try ring.

Lemma C_ring : ring_theory C0 C1 Cadd Cmul Csub Copp eq.
Proof. constructor; csolve. Qed.

Add Ring C_ring_inst : C_ring.

Lemma Cmul_integral (a b : C) : Cmul a b = C0 -> a <> C0 -> b = C0.
Proof.
  destruct a as [x y], b as [u v]; unfold Cmul, C0, RtoC; simpl.
  intros H Ha; injection H as H1 H2.
  assert (Hxy : 0 < x * x + y * y).
  { destruct (Req_dec_T x 0) as [-> | Hx];
      [destruct (Req_dec_T y 0) as [-> | Hy]; [now elim Ha | nra] | nra]. }
  assert (Hu : (x * x + y * y) * u = 0).
  { replace ((x * x + y * y) * u)
      with (x * (x * u - y * v) + y * (x * v + y * u)) by ring.
    rewrite H1, H2; ring. }
  assert (Hv : (x * x + y * y) * v = 0).
  { replace ((x * x + y * y) * v)
      with (x * (x * v + y * u) - y * (x * u - y * v)) by ring.
    rewrite H1, H2; ring. }
  f_equal; nra.
Qed.

Lemma Cabs_0 : Cabs C0 = 0.
Proof.
  unfold Cabs, C0, RtoC; simpl.
  replace (0 * 0 + 0 * 0) with 0 by ring. apply sqrt_0.
Qed.

Lemma Cabs_scal (r : R) (a : C) : Cabs (Cmul (RtoC r) a) = Rabs r * Cabs a.
Proof.
  destruct a as [x y]; unfold Cabs, Cmul, RtoC; simpl.
  replace ((r * x - 0 * y) * (r * x - 0 * y) + (r * y + 0 * x) * (r * y + 0 * x))
    with (Rsqr r * (x * x + y * y)) by (unfold Rsqr; ring).
  rewrite sqrt_mult by (try apply Rle_0_sqr; nra).
  now rewrite sqrt_Rsqr_abs.
Qed.

(** * Finite sums *)

Lemma csum_ext (m : nat) (f g : nat -> C) :
  (forall i, (i < m)%nat -> f i = g i) -> csum m f = csum m g.
Proof.
  induction m as [|m IH]; intros H; simpl; [reflexivity|].
  rewrite IH by (intros; apply H; lia). rewrite H by lia. reflexivity.
Qed.

Lemma csum_zero (m : nat) : csum m (fun _ => C0) = C0.
Proof. induction m as [|m IH]; simpl; [reflexivity | rewrite IH; ring]. Qed.

Lemma csum_add (m : nat) (f g : nat -> C) :
  csum m (fun i => Cadd (f i) (g i)) = Cadd (csum m f) (csum m g).
Proof. induction m as [|m IH]; simpl; [ring | rewrite IH; ring]. Qed.

Lemma csum_scal_l (m : nat) (c : C) (f : nat -> C) :
  csum m (fun i => Cmul c (f i)) = Cmul c (csum m f).
Proof. induction m as [|m IH]; simpl; [ring | rewrite IH; ring]. Qed.

Lemma csum_scal_r (m : nat) (c : C) (f : nat -> C) :
  csum m (fun i => Cmul (f i) c) = Cmul (csum m f) c.
Proof. induction m as [|m IH]; simpl; [ring | rewrite IH; ring]. Qed.

Lemma csum_swap (m m' : nat) (f : nat -> nat -> C) :
  csum m (fun i => csum m' (fun j => f i j))
  = csum m' (fun j => csum m (fun i => f i j)).
Proof.
  induction m as [|m IH]; simpl.
  - now rewrite csum_zero.
  - now rewrite IH, csum_add.
Qed.

(** A sum whose only non-zero term is the one at [j]. *)
Lemma csum_single (m j : nat) (f : nat -> C) :
  (j < m)%nat -> (forall i, (i < m)%nat -> i <> j -> f i = C0) ->
  csum m f = f j.
Proof.
  induction m as [|m IH]; intros Hj H; [lia|]; simpl.
  destruct (Nat.eq_dec j m) as [-> | Hne].
  - rewrite (csum_ext m f (fun _ => C0)) by (intros; apply H; lia).
    rewrite csum_zero; ring.
  - rewrite IH by (try lia; intros; apply H; lia).
    rewrite (H m) by lia. ring.
Qed.

(** * The unit circle *)

Lemma cis_0 : cis 0 = C1.
Proof. unfold cis; now rewrite cos_0, sin_0. Qed.

Lemma cis_add (a b : R) : cis (a + b) = Cmul (cis a) (cis b).
Proof.
  unfold cis, Cmul; simpl. rewrite cos_plus, sin_plus. f_equal; ring.
Qed.

Lemma cis_neg (a : R) : cis (- a) = Cconj (cis a).
Proof. unfold cis, Cconj; simpl. now rewrite cos_neg, sin_neg. Qed.

Lemma cis_2PI_nat (q : nat) : cis (2 * PI * INR q) = C1.
Proof.
  unfold cis, C1, RtoC.
  replace (2 * PI * INR q) with (0 + 2 * INR q * PI) by ring.
  now rewrite cos_period, sin_period, cos_0, sin_0.
Qed.

Lemma cos_neq_1 (t : R) : 0 < t < 2 * PI -> cos t <> 1.
Proof.
  intros [H0 H1] Hc.
  assert (Hs : sin t = 0).
  { pose proof (sin2_cos2 t) as H. rewrite Hc in H. unfold Rsqr in H. nra. }
  destruct (sin_eq_O_2PI_0 t) as [E | [E | E]]; try lra.
  rewrite E, cos_PI in Hc. lra.
Qed.

Lemma cis_neq_1 (t : R) : 0 < Rabs t < 2 * PI -> cis t <> C1.
Proof.
  intros Ht H. unfold cis, C1, RtoC in H. injection H as Hc _.
  destruct (Rcase_abs t) as [Hneg | Hpos].
  - rewrite (Rabs_left t Hneg) in Ht. rewrite <- cos_neg in Hc.
    now apply (cos_neq_1 (- t)).
  - rewrite (Rabs_right t Hpos) in Ht. now apply (cos_neq_1 t).
Qed.

(** The geometric sum of the powers of a root of unity other than 1. *)
Lemma csum_geometric (m : nat) (t : R) :
  Cmul (Csub (cis t) C1) (csum m (fun r => cis (INR r * t)))
  = Csub (cis (INR m * t)) C1.
Proof.
  induction m as [|m IH].
  - simpl. rewrite Rmult_0_l, cis_0. ring.
  - change (csum (S m) (fun r => cis (INR r * t)))
      with (Cadd (csum m (fun r => cis (INR r * t))) (cis (INR m * t))).
    rewrite S_INR.
    replace ((INR m + 1) * t) with (t + INR m * t) by ring.
    rewrite cis_add.
    transitivity (Cadd (Cmul (Csub (cis t) C1) (csum m (fun r => cis (INR r * t))))
                       (Cmul (Csub (cis t) C1) (cis (INR m * t)))); [ring|].
    rewrite IH. ring.
Qed.

Lemma csum_root_of_unity (m : nat) (t : R) :
  cis (INR m * t) = C1 -> cis t <> C1 ->
  csum m (fun r => cis (INR r * t)) = C0.
Proof.
  intros Hm Ht. apply (Cmul_integral (Csub (cis t) C1)).
  - rewrite csum_geometric, Hm. ring.
  - intros H. apply Ht.
    transitivity (Cadd (Csub (cis t) C1) C1); [ring | rewrite H; ring].
Qed.

Lemma csum_const_1 (m : nat) : csum m (fun _ => C1) = RtoC (INR m).
Proof.
  induction m as [|m IH]; [reflexivity|].
  change (csum (S m) (fun _ => C1)) with (Cadd (csum m (fun _ => C1)) C1).
  rewrite IH, S_INR. csolve.
Qed.

(** Orthogonality of the characters of Z/m. *)
Lemma cis_orthogonal (m j q : nat) :
  (j < m)%nat -> (q < m)%nat ->
  csum m (fun r => Cmul (cis (2 * PI * INR (j * r) / INR m))
                        (cis (- (2 * PI * INR (q * r) / INR m))))
  = if (j =? q)%nat then RtoC (INR m) else C0.
Proof.
  intros Hj Hq.
  assert (Hm : 0 < INR m) by (apply lt_0_INR; lia).
  set (t := 2 * PI * (INR j - INR q) / INR m).
  rewrite (csum_ext m _ (fun r => cis (INR r * t))).
  2:{ intros r _. rewrite <- cis_add. f_equal. unfold t.
      rewrite !mult_INR. field. lra. }
  destruct (Nat.eqb_spec j q) as [-> | Hne].
  - unfold t. rewrite (csum_ext m _ (fun _ => C1)).
    + apply csum_const_1.
    + intros r _. rewrite <- cis_0. f_equal. field. lra.
  - apply csum_root_of_unity.
    + replace (INR m * t) with (2 * PI * INR j + - (2 * PI * INR q))
        by (unfold t; field; lra).
      rewrite cis_add, cis_neg, !cis_2PI_nat. csolve.
    + apply cis_neq_1. unfold t.
      assert (Hjm : INR j < INR m) by (apply lt_INR; lia).
      assert (Hqm : INR q < INR m) by (apply lt_INR; lia).
      assert (Hj0 : 0 <= INR j) by apply pos_INR.
      assert (Hq0 : 0 <= INR q) by apply pos_INR.
      assert (Hd : INR j - INR q <> 0).
      { intros E. apply Hne. apply INR_eq. lra. }
      pose proof PI_RGT_0 as Hpi.
      replace (2 * PI * (INR j - INR q) / INR m)
        with (2 * PI * ((INR j - INR q) / INR m)) by (field; lra).
      rewrite Rabs_mult, (Rabs_right (2 * PI)) by lra.
      assert (Hb : 0 < Rabs ((INR j - INR q) / INR m) < 1).
      { unfold Rdiv. rewrite Rabs_mult, (Rabs_right (/ INR m)).
        2:{ apply Rle_ge, Rlt_le, Rinv_0_lt_compat, Hm. }
        split.
        - apply Rmult_lt_0_compat; [now apply Rabs_pos_lt | now apply Rinv_0_lt_compat].
        - apply (Rmult_lt_reg_r (INR m)); [exact Hm|].
          rewrite Rmult_assoc, Rinv_l, Rmult_1_r, Rmult_1_l by lra.
          apply Rabs_def1; lra. }
      nra.
Qed.

(** * The transforms *)

Lemma fft_ext (m : nat) (a b : nat -> C) (q : nat) :
  (forall j, (j < m)%nat -> a j = b j) -> fft m a q = fft m b q.
Proof. intros H. unfold fft. apply csum_ext. intros j Hj. now rewrite H. Qed.

Lemma ifft_ext (m : nat) (a b : nat -> C) (q : nat) :
  (forall j, (j < m)%nat -> a j = b j) -> ifft m a q = ifft m b q.
Proof.
  intros H. unfold ifft. f_equal. apply csum_ext. intros j Hj. now rewrite H.
Qed.

Lemma Cinv_INR (m : nat) : (0 < m)%nat -> Cmul (RtoC (/ INR m)) (RtoC (INR m)) = C1.
Proof.
  intros Hm. assert (0 < INR m) by (apply lt_0_INR; lia).
  apply C_eq; unfold Cmul, RtoC, C1, Re, Im; simpl; field; lra.
Qed.

(** The one-dimensional transforms are inverse to each other. *)
Lemma ifft_fft (m : nat) (a : nat -> C) (j : nat) :
  (j < m)%nat -> ifft m (fft m a) j = a j.
Proof.
  intros Hj. unfold ifft, fft.
  rewrite (csum_ext m _
    (fun q => csum m (fun r =>
       Cmul (a r) (Cmul (cis (2 * PI * INR (j * q) / INR m))
                        (cis (- (2 * PI * INR (r * q) / INR m))))))).
  2:{ intros q _. rewrite <- csum_scal_r. apply csum_ext. intros r _. ring. }
  rewrite csum_swap.
  rewrite (csum_ext m _
    (fun r => Cmul (a r) (if (j =? r)%nat then RtoC (INR m) else C0))).
  2:{ intros r Hr. rewrite csum_scal_l. now rewrite cis_orthogonal. }
  rewrite (csum_single m j).
  - rewrite Nat.eqb_refl.
    transitivity (Cmul (a j) (Cmul (RtoC (/ INR m)) (RtoC (INR m)))); [ring|].
    rewrite Cinv_INR by lia. ring.
  - exact Hj.
  - intros r _ Hr. destruct (Nat.eqb_spec j r); [congruence | ring].
Qed.

Lemma fft_ifft (m : nat) (a : nat -> C) (q : nat) :
  (q < m)%nat -> fft m (ifft m a) q = a q.
Proof.
  intros Hq. unfold ifft, fft.
  rewrite (csum_ext m _
    (fun j => Cmul (RtoC (/ INR m)) (csum m (fun r =>
       Cmul (a r) (Cmul (cis (2 * PI * INR (r * j) / INR m))
                        (cis (- (2 * PI * INR (q * j) / INR m)))))))).
  2:{ intros j _.
      transitivity (Cmul (RtoC (/ INR m))
        (Cmul (csum m (fun r => Cmul (a r) (cis (2 * PI * INR (j * r) / INR m))))
              (cis (- (2 * PI * INR (j * q) / INR m))))); [ring|].
      f_equal. rewrite <- csum_scal_r. apply csum_ext. intros r _.
      rewrite (Nat.mul_comm j r), (Nat.mul_comm j q). ring. }
  rewrite csum_scal_l, csum_swap.
  rewrite (csum_ext m _
    (fun r => Cmul (a r) (if (r =? q)%nat then RtoC (INR m) else C0))).
  2:{ intros r Hr. rewrite csum_scal_l. now rewrite cis_orthogonal. }
  rewrite (csum_single m q).
  - rewrite Nat.eqb_refl.
    transitivity (Cmul (a q) (Cmul (RtoC (/ INR m)) (RtoC (INR m)))); [ring|].
    rewrite Cinv_INR by lia. ring.
  - exact Hq.
  - intros r _ Hr. destruct (Nat.eqb_spec r q); [congruence | ring].
Qed.

(** A transform along one axis commutes with one along the other. *)
Lemma fft_ifft_axes (m : nat) (a : cfield) (i j : nat) :
  along_axis1 (ifft m) (along_axis0 (fft m) a) i j
  = along_axis0 (fft m) (along_axis1 (ifft m) a) i j.
Proof.
  unfold along_axis0, along_axis1, fft, ifft.
  rewrite (csum_ext m _
    (fun q => csum m (fun r =>
       Cmul (Cmul (a r q) (cis (- (2 * PI * INR (r * i) / INR m))))
            (cis (2 * PI * INR (j * q) / INR m))))).
  2:{ intros q _. now rewrite csum_scal_r. }
  rewrite csum_swap, <- csum_scal_l. apply csum_ext. intros r _.
  transitivity (Cmul (RtoC (/ INR m))
    (Cmul (csum m (fun q => Cmul (a r q) (cis (2 * PI * INR (j * q) / INR m))))
          (cis (- (2 * PI * INR (r * i) / INR m))))); [f_equal | ring].
  rewrite <- csum_scal_r. apply csum_ext. intros q _. ring.
Qed.

Lemma ifft_fft_axes (m : nat) (a : cfield) (i j : nat) :
  along_axis1 (fft m) (along_axis0 (ifft m) a) i j
  = along_axis0 (ifft m) (along_axis1 (fft m) a) i j.
Proof.
  unfold along_axis0, along_axis1, fft, ifft.
  rewrite (csum_ext m _
    (fun q => Cmul (RtoC (/ INR m)) (csum m (fun r =>
       Cmul (Cmul (a r q) (cis (2 * PI * INR (i * r) / INR m)))
            (cis (- (2 * PI * INR (q * j) / INR m))))))).
  2:{ intros q _.
      transitivity (Cmul (RtoC (/ INR m))
        (Cmul (csum m (fun r => Cmul (a r q) (cis (2 * PI * INR (i * r) / INR m))))
              (cis (- (2 * PI * INR (q * j) / INR m))))); [ring | f_equal].
      now rewrite <- csum_scal_r. }
  rewrite csum_scal_l, csum_swap. f_equal. apply csum_ext. intros r _.
  rewrite <- csum_scal_r. apply csum_ext. intros q _. ring.
Qed.

Lemma fftn_ext (m : nat) (a b : cfield) :
  feq m a b -> forall i j, fftn m a i j = fftn m b i j.
Proof.
  intros H i j. unfold fftn, along_axis0, along_axis1.
  apply fft_ext. intros r Hr. apply fft_ext. intros c Hc. now apply H.
Qed.

Lemma ifftn_ext (m : nat) (a b : cfield) :
  feq m a b -> forall i j, ifftn m a i j = ifftn m b i j.
Proof.
  intros H i j. unfold ifftn, along_axis0, along_axis1.
  apply ifft_ext. intros r Hr. apply ifft_ext. intros c Hc. now apply H.
Qed.

Lemma ifftn_fftn (m : nat) (a : cfield) : feq m (ifftn m (fftn m a)) a.
Proof.
  intros i j Hi Hj. unfold ifftn, fftn.
  unfold along_axis0 at 1.
  rewrite (ifft_ext m _ (fun r => along_axis0 (fft m)
             (along_axis1 (ifft m) (along_axis1 (fft m) a)) r j)).
  2:{ intros r _. apply fft_ifft_axes. }
  unfold along_axis0. rewrite ifft_fft by exact Hi.
  unfold along_axis1. now rewrite ifft_fft.
Qed.

Lemma fftn_ifftn (m : nat) (a : cfield) : feq m (fftn m (ifftn m a)) a.
Proof.
  intros i j Hi Hj. unfold ifftn, fftn.
  unfold along_axis0 at 1.
  rewrite (fft_ext m _ (fun r => along_axis0 (ifft m)
             (along_axis1 (fft m) (along_axis1 (ifft m) a)) r j)).
  2:{ intros r _. apply ifft_fft_axes. }
  unfold along_axis0. rewrite fft_ifft by exact Hi.
  unfold along_axis1. now rewrite fft_ifft.
Qed.

(** The transforms of the zero field. *)
Lemma fft_zero (m : nat) (a : nat -> C) (q : nat) :
  (forall j, (j < m)%nat -> a j = C0) -> fft m a q = C0.
Proof.
  intros H. unfold fft. rewrite (csum_ext m _ (fun _ => C0)).
  - apply csum_zero.
  - intros j Hj. rewrite H by exact Hj. ring.
Qed.

Lemma ifft_zero (m : nat) (a : nat -> C) (q : nat) :
  (forall j, (j < m)%nat -> a j = C0) -> ifft m a q = C0.
Proof.
  intros H. unfold ifft. rewrite (csum_ext m _ (fun _ => C0)).
  - rewrite csum_zero. ring.
  - intros j Hj. rewrite H by exact Hj. ring.
Qed.

Lemma fftn_zero (m : nat) (a : cfield) :
  feq m a fzero -> forall i j, fftn m a i j = C0.
Proof.
  intros H i j. unfold fftn, along_axis0, along_axis1.
  apply fft_zero. intros r Hr. apply fft_zero. intros c Hc. now apply H.
Qed.

Lemma ifftn_zero (m : nat) (a : cfield) :
  feq m a fzero -> forall i j, ifftn m a i j = C0.
Proof.
  intros H i j. unfold ifftn, along_axis0, along_axis1.
  apply ifft_zero. intros r Hr. apply ifft_zero. intros c Hc. now apply H.
Qed.

(** * The centre shift *)

Lemma roll_index_lt (m i : nat) : (0 < m)%nat -> (roll_index m i < m)%nat.
Proof. intros Hm. unfold roll_index. apply Nat.mod_upper_bound. lia. Qed.

(** On an even axis the shift is its own inverse. *)
Lemma roll_index_involutive (m i : nat) :
  Nat.even m = true -> (i < m)%nat -> roll_index m (roll_index m i) = i.
Proof.
  intros He Hi. unfold roll_index.
  apply Nat.even_spec in He. destruct He as [h ->].
  replace (2 * h / 2)%nat with h by (symmetry; rewrite Nat.mul_comm; apply Nat.div_mul; lia).
  replace (2 * h - h)%nat with h by lia.
  rewrite Nat.Div0.add_mod_idemp_l.
  replace (i + h + h)%nat with (i + 1 * (2 * h))%nat by lia.
  rewrite Nat.Div0.mod_add. now apply Nat.mod_small.
Qed.

(** On an odd axis two shifts roll the axis back by one place. *)
Lemma roll_index_twice_odd (m i : nat) :
  Nat.odd m = true -> (i < m)%nat ->
  roll_index m (roll_index m i) = ((i + 1) mod m)%nat.
Proof.
  intros Ho Hi. unfold roll_index.
  apply Nat.odd_spec in Ho. destruct Ho as [h ->].
  replace ((2 * h + 1) / 2)%nat with h.
  2:{ apply (Nat.div_unique _ 2 h 1); lia. }
  replace (2 * h + 1 - h)%nat with (h + 1)%nat by lia.
  rewrite Nat.Div0.add_mod_idemp_l.
  replace (i + (h + 1) + (h + 1))%nat with (i + 1 + 1 * (2 * h + 1))%nat by lia.
  now rewrite Nat.Div0.mod_add.
Qed.

Lemma fftshift_involutive (m : nat) (a : cfield) :
  Nat.even m = true -> feq m (fftshift m (fftshift m a)) a.
Proof.
  intros He i j Hi Hj. unfold fftshift. now rewrite !roll_index_involutive.
Qed.

Lemma fftshift_zero (m : nat) (a : cfield) :
  feq m a fzero -> feq m (fftshift m a) fzero.
Proof.
  intros H i j Hi Hj. unfold fftshift.
  now rewrite H by (apply roll_index_lt; lia).
Qed.

Lemma ft_zero (m : nat) (a : cfield) : feq m a fzero -> feq m (ft m a) fzero.
Proof.
  intros H. unfold ft. apply fftshift_zero. intros i j _ _. now apply fftn_zero.
Qed.

Lemma ift_zero (m : nat) (a : cfield) : feq m a fzero -> feq m (ift m a) fzero.
Proof.
  intros H i j _ _. unfold ift. apply ifftn_zero. now apply fftshift_zero.
Qed.

Lemma ift_ext (m : nat) (a b : cfield) :
  feq m a b -> forall i j, ift m a i j = ift m b i j.
Proof.
  intros H i j. unfold ift. apply ifftn_ext. intros r c Hr Hc.
  unfold fftshift. apply H; apply roll_index_lt; lia.
Qed.

Lemma fft_const (m : nat) (c : C) (q : nat) :
  (q < m)%nat ->
  fft m (fun _ => c) q = if (q =? 0)%nat then Cmul c (RtoC (INR m)) else C0.
Proof.
  intros Hq. unfold fft.
  rewrite (csum_ext m _
    (fun j => Cmul c (Cmul (cis (2 * PI * INR (0 * j) / INR m))
                           (cis (- (2 * PI * INR (q * j) / INR m)))))).
  2:{ intros j _. rewrite Nat.mul_0_l, (Nat.mul_comm q j). simpl INR.
      replace (2 * PI * 0 / INR m) with 0 by (unfold Rdiv; ring).
      rewrite cis_0. ring. }
  rewrite csum_scal_l, cis_orthogonal by lia.
  rewrite (Nat.eqb_sym q 0). destruct (0 =? q)%nat; ring.
Qed.

Lemma fftn_const (m : nat) (c : C) (q r : nat) :
  (q < m)%nat -> (r < m)%nat ->
  fftn m (fun _ _ => c) q r
  = if ((q =? 0) && (r =? 0))%nat then Cmul c (RtoC (INR m * INR m)) else C0.
Proof.
  intros Hq Hr. unfold fftn, along_axis0, along_axis1.
  rewrite (fft_ext m _ (fun _ => if (r =? 0)%nat then Cmul c (RtoC (INR m)) else C0)).
  2:{ intros j _. now apply fft_const. }
  rewrite fft_const by exact Hq.
  destruct (q =? 0)%nat, (r =? 0)%nat; simpl; csolve.
Qed.

(** * Round trip through spectral space *)

(** On a grid with an even number of points per axis, such as the
    source's [N = 128], [ift (ft F)] is [F] for every complex field [F] of
    that shape: there the second [fftshift] undoes the first, and [ifftn]
    undoes [fftn]. *)
Theorem ift_ft_even (m : nat) (F : cfield) :
  Nat.even m = true -> feq m (ift m (ft m F)) F.
Proof.
  intros He i j Hi Hj. unfold ift, ft.
  rewrite (ifftn_ext m _ (fftn m F)) by now apply fftshift_involutive.
  now apply ifftn_fftn.
Qed.

Lemma ift_ft_even_witness :
  Nat.even 128 = true
  /\ feq 128 (ift 128 (ft 128 (fun i j => (INR i, INR j)))) (fun i j => (INR i, INR j)).
Proof.
  split; [reflexivity | apply (ift_ft_even 128 (fun i j => (INR i, INR j)))].
  reflexivity.
Defined.

(** On the grid of one point the shift does nothing and the round trip
    holds as well. *)
Lemma ift_ft_one_point_grid (F : cfield) : feq 1 (ift 1 (ft 1 F)) F.
Proof.
  intros i j Hi Hj. assert (i = 0%nat) by lia. assert (j = 0%nat) by lia.
  subst i j. unfold ift, ft.
  rewrite (ifftn_ext 1 _ (fftn 1 F)).
  - apply ifftn_fftn; lia.
  - intros r c Hr Hc. assert (r = 0%nat) by lia. assert (c = 0%nat) by lia.
    subst r c. reflexivity.
Qed.

(** On every odd grid of three or more points the constant field 1 does
    not come back: after two shifts the only non-zero coefficient of its
    transform, the one of index (0, 0), sits one place off. *)
Lemma ift_ft_odd_fails (m : nat) :
  Nat.odd m = true -> (3 <= m)%nat ->
  ~ feq m (ift m (ft m (fun _ _ => C1))) (fun _ _ => C1).
Proof.
  intros Ho Hm H.
  pose proof (fftn_ext m _ _ H (m - 1)%nat (m - 1)%nat) as E.
  unfold ift in E. rewrite fftn_ifftn in E by lia.
  unfold ft, fftshift in E.
  rewrite roll_index_twice_odd in E by (try assumption; lia).
  replace (m - 1 + 1)%nat with m in E by lia.
  rewrite Nat.Div0.mod_same in E.
  rewrite !fftn_const in E by lia.
  destruct (Nat.eqb_spec (m - 1) 0) as [E0 | _]; [lia|]. simpl in E.
  unfold Cmul, C1, C0, RtoC in E; simpl in E. injection E as E _.
  assert (0 < INR m) by (apply lt_0_INR; lia). nra.
Qed.

(** C4: the round trip fails on an odd grid.  [ift] applies [fftshift] a
    second time where the inverse shift is needed; on three points two
    shifts are a roll by one place, so the constant field 1 of shape
    (3, 3) does not come back from [ift (ft F)]. *)
Lemma ift_ft_odd_counterexample :
  ~ feq 3 (ift 3 (ft 3 (fun _ _ => C1))) (fun _ _ => C1).
Proof.
  intros H.
  pose proof (fftn_ext 3 _ _ H 2%nat 2%nat) as E.
  unfold ift in E. rewrite fftn_ifftn in E by lia.
  unfold ft, fftshift in E.
  change (roll_index 3 (roll_index 3 2)) with 0%nat in E.
  rewrite !fftn_const in E by lia. simpl in E.
  unfold Cmul, C1, C0, RtoC in E; simpl in E.
  injection E as E _. lra.
Qed.

(** * The wavenumber grid *)

Lemma length_arange (lo hi : Z) : length (arange lo hi) = Z.to_nat (hi - lo).
Proof. unfold arange. now rewrite length_map, length_seq. Qed.

Lemma nth_arange (lo hi d : Z) (i : nat) :
  (i < Z.to_nat (hi - lo))%nat -> nth i (arange lo hi) d = (lo + Z.of_nat i)%Z.
Proof.
  intros Hi. unfold arange.
  rewrite (nth_indep _ d (lo + Z.of_nat 0)%Z) by now rewrite length_map, length_seq.
  rewrite (map_nth (fun i => (lo + Z.of_nat i)%Z)), seq_nth by exact Hi.
  reflexivity.
Qed.

Lemma half_span (a : Z) : (a / 2 - - a / 2 = a)%Z.
Proof. Z.div_mod_to_equations. lia. Qed.

Section Grid.

Variable p : params.

Lemma dk_eq : dk = 2 * PI.
Proof. unfold dk, domain. field. Qed.

Lemma dk_pos : 0 < dk.
Proof. rewrite dk_eq. pose proof PI_RGT_0. lra. Qed.

Lemma dk_ge_1 : 1 <= dk.
Proof. rewrite dk_eq. pose proof PI2_1. lra. Qed.

Lemma l_eq_k : l p = k p.
Proof. reflexivity. Qed.

Lemma length_k : length (k p) = nn p.
Proof.
  unfold k, nn. rewrite length_map, length_arange. f_equal. apply half_span.
Qed.

(** Entry [i] of [k] is the integer [(-n) // 2 + i] times [dk]. *)
Lemma nth_k (i : nat) :
  (i < nn p)%nat -> nth i (k p) 0 = IZR (- n p / 2 + Z.of_nat i) * dk.
Proof.
  intros Hi. unfold k.
  replace 0 with (IZR 0 * dk) at 1 by ring.
  rewrite (map_nth (fun w => IZR w * dk)), nth_arange; [reflexivity|].
  rewrite half_span. exact Hi.
Qed.

Lemma nth_k_out (i : nat) : (nn p <= i)%nat -> nth i (k p) 0 = 0.
Proof. intros Hi. apply nth_overflow. now rewrite length_k. Qed.

(** Every entry of [k], and the default outside it, is an integer
    multiple of [dk]. *)
Lemma nth_k_int (i : nat) : exists a : Z, nth i (k p) 0 = IZR a * dk.
Proof.
  destruct (Nat.lt_ge_cases i (nn p)) as [Hi | Hi].
  - eexists. now apply nth_k.
  - exists 0%Z. rewrite nth_k_out by exact Hi. ring.
Qed.

Lemma ksq_raw_nonneg (i j : nat) : 0 <= ksq_raw p i j.
Proof. unfold ksq_raw. nra. Qed.

Lemma ksq_pos (i j : nat) : 0 < ksq p i j.
Proof.
  unfold ksq. destruct (Req_dec_T (ksq_raw p i j) 0) as [E | E]; [lra|].
  pose proof (ksq_raw_nonneg i j). lra.
Qed.

Lemma ksq_ge_1 (i j : nat) : 1 <= ksq p i j.
Proof.
  unfold ksq. destruct (Req_dec_T (ksq_raw p i j) 0) as [E | E]; [lra|].
  unfold ksq_raw, kk, ll in *. rewrite l_eq_k in *.
  destruct (nth_k_int j) as [a Ha], (nth_k_int i) as [b Hb].
  rewrite Ha, Hb in *.
  assert (Hab : (1 <= a * a + b * b)%Z).
  { destruct (Z.eq_dec a 0%Z) as [-> | Hane].
    - destruct (Z.eq_dec b 0%Z) as [-> | Hbne]; [|nia].
      exfalso. apply E. simpl. ring.
    - nia. }
  apply IZR_le in Hab. rewrite plus_IZR, !mult_IZR in Hab.
  pose proof dk_ge_1.
  replace ((IZR a * dk) ^ 2 + (IZR b * dk) ^ 2)
    with ((IZR a * IZR a + IZR b * IZR b) * (dk * dk)) by ring.
  nra.
Qed.

Lemma ksq_at_zero (i j : nat) : kk p i j = 0 -> ll p i j = 0 -> ksq p i j = 1.
Proof.
  intros Hk Hl. unfold ksq, ksq_raw. rewrite Hk, Hl.
  destruct (Req_dec_T _ _) as [E | E]; [reflexivity|].
  exfalso. apply E. ring.
Qed.

Lemma rksq_bounds (i j : nat) : 0 < rksq p i j <= 1.
Proof.
  unfold rksq. pose proof (ksq_ge_1 i j) as H.
  split.
  - apply Rdiv_lt_0_compat; lra.
  - apply (Rmult_le_reg_r (ksq p i j)); [lra|].
    unfold Rdiv. rewrite Rmult_assoc, Rinv_l by lra. lra.
Qed.

Lemma rksq_ksq (i j : nat) : rksq p i j * ksq p i j = 1.
Proof. unfold rksq. pose proof (ksq_pos i j). field. lra. Qed.

(** The index of the zero wavenumber on each axis. *)
Lemma k_zero_index :
  (2 <= N p)%Z ->
  exists i0, (i0 < nn p)%nat /\ nth i0 (k p) 0 = 0
             /\ forall i, (i < nn p)%nat -> nth i (k p) 0 = 0 -> i = i0.
Proof.
  intros HN. exists (Z.to_nat (- (- n p / 2))).
  assert (Hlo : (- n p / 2 <= 0)%Z) by (unfold n; Z.div_mod_to_equations; lia).
  assert (Hin : (Z.to_nat (- (- n p / 2)) < nn p)%nat).
  { unfold nn, n in *. Z.div_mod_to_equations. lia. }
  split; [exact Hin | split].
  - rewrite nth_k by exact Hin.
    replace (- n p / 2 + Z.of_nat (Z.to_nat (- (- n p / 2))))%Z with 0%Z by lia.
    ring.
  - intros i Hi E. rewrite nth_k in E by exact Hi.
    pose proof dk_pos.
    assert (E' : IZR (- n p / 2 + Z.of_nat i) = 0) by nra.
    apply eq_IZR in E'. lia.
Qed.

End Grid.

Lemma In_arange (lo hi a : Z) : In a (arange lo hi) <-> (lo <= a < hi)%Z.
Proof.
  unfold arange. rewrite in_map_iff. split.
  - intros [i [<- Hi]]. apply in_seq in Hi. lia.
  - intros Ha. exists (Z.to_nat (a - lo)). split; [lia|]. apply in_seq. lia.
Qed.

Section GridShape.

Variable p : params.

(** The entries of [k] are exactly the integers of [(-n) // 2, n // 2)
    scaled by [dk]. *)
Lemma In_k (w : R) :
  In w (k p) <-> exists a : Z, (- n p / 2 <= a < n p / 2)%Z /\ w = IZR a * dk.
Proof.
  unfold k. rewrite in_map_iff. split.
  - intros [a [<- Ha]]. exists a. now rewrite In_arange in Ha.
  - intros [a [Ha ->]]. exists a. now rewrite In_arange.
Qed.

Lemma IZR_dk_inj (a b : Z) : IZR a * dk = IZR b * dk -> a = b.
Proof.
  intros E. pose proof dk_pos. apply eq_IZR. nra.
Qed.

Lemma k_entry_bound (j : nat) :
  (j < nn p)%nat -> Rabs (nth j (k p) 0) < IZR (N p) * 2 * dk.
Proof.
  intros Hj. rewrite nth_k by exact Hj.
  pose proof dk_pos as Hd.
  rewrite Rabs_mult, (Rabs_right dk) by lra.
  rewrite <- abs_IZR.
  assert (Hb : (Z.abs (- n p / 2 + Z.of_nat j) < N p * 2)%Z).
  { unfold nn, n in *. Z.div_mod_to_equations. lia. }
  apply IZR_lt in Hb. rewrite mult_IZR in Hb. nra.
Qed.

End GridShape.

(** * Anti-aliasing *)

Lemma anti_alias_cases (p : params) (phit : cfield) (cutoff : R) (i j : nat) :
  (Rabs (kk p i j) >= cutoff \/ Rabs (ll p i j) >= cutoff ->
   anti_alias p phit cutoff i j = C0)
  /\ (Rabs (kk p i j) < cutoff /\ Rabs (ll p i j) < cutoff ->
      anti_alias p phit cutoff i j = phit i j).
Proof.
  unfold anti_alias, aa_mask.
  destruct (Rge_dec (Rabs (kk p i j)) cutoff) as [Hk | Hk];
    destruct (Rge_dec (Rabs (ll p i j)) cutoff) as [Hl | Hl]; simpl;
    split; try reflexivity; lra.
Qed.

(** C3: [anti_alias] leaves exactly zero at every position whose [|kk|] or
    [|ll|] reaches the cutoff, and leaves every other coefficient as it
    was, for every field and every cutoff. *)
Theorem anti_alias_mask (p : params) (phit : cfield) (cutoff : R) (i j : nat) :
  (Rabs (kk p i j) >= cutoff \/ Rabs (ll p i j) >= cutoff ->
   anti_alias p phit cutoff i j = C0)
  /\ (Rabs (kk p i j) < cutoff /\ Rabs (ll p i j) < cutoff ->
      anti_alias p phit cutoff i j = phit i j).
Proof. exact (anti_alias_cases p phit cutoff i j). Qed.

Lemma nn_source : nn source_params = 128%nat.
Proof. reflexivity. Qed.

Lemma kk_source (i j : nat) :
  (j < 128)%nat -> kk source_params i j = IZR (Z.of_nat j - 64) * dk.
Proof.
  intros Hj. unfold kk. rewrite nth_k by (rewrite nn_source; exact Hj).
  f_equal. f_equal. change (- n source_params / 2)%Z with (-64)%Z. lia.
Qed.

Lemma ll_source (i j : nat) :
  (i < 128)%nat -> ll source_params i j = IZR (Z.of_nat i - 64) * dk.
Proof.
  intros Hi. unfold ll. rewrite l_eq_k, nth_k by (rewrite nn_source; exact Hi).
  f_equal. f_equal. change (- n source_params / 2)%Z with (-64)%Z. lia.
Qed.

Lemma k_max_source : k_max source_params = 42 * dk.
Proof. unfold k_max. change (AA_FAC source_params) with 21. lra. Qed.

(** With the source's parameters the corner coefficient is removed and the
    coefficient of the zero wavenumber is kept. *)
Lemma anti_alias_mask_witness :
  anti_alias source_params (fun _ _ => C1) (k_max source_params) 0%nat 0%nat = C0
  /\ anti_alias source_params (fun _ _ => C1) (k_max source_params) 64%nat 64%nat = C1.
Proof.
  pose proof dk_pos as Hd. split.
  - apply (anti_alias_mask source_params (fun _ _ => C1) (k_max source_params) 0%nat 0%nat).
    left. rewrite kk_source, k_max_source by lia.
    change (Z.of_nat 0 - 64)%Z with (-64)%Z.
    rewrite Rabs_left; lra.
  - apply (anti_alias_mask source_params (fun _ _ => C1) (k_max source_params) 64%nat 64%nat).
    rewrite kk_source, ll_source, k_max_source by lia.
    change (Z.of_nat 64 - 64)%Z with 0%Z.
    rewrite Rmult_0_l, Rabs_R0. lra.
Defined.

(** C7: with [AA_FAC = 0] the cutoff is 0 and every coefficient is
    zeroed; with [AA_FAC = n] the cutoff [2 n dk] is above every wavenumber
    of the grid and no coefficient is touched. *)
Theorem anti_alias_extremes (p : params) :
  (AA_FAC p = 0 ->
   forall phit i j, anti_alias p phit (k_max p) i j = C0)
  /\ (AA_FAC p = IZR (N p) ->
      forall phit i j, (i < nn p)%nat -> (j < nn p)%nat ->
        anti_alias p phit (k_max p) i j = phit i j).
Proof.
  split.
  - intros H0 phit i j.
    apply (anti_alias_cases p phit (k_max p) i j). left.
    unfold k_max. rewrite H0, !Rmult_0_l. apply Rle_ge, Rabs_pos.
  - intros Hn phit i j Hi Hj.
    apply (anti_alias_cases p phit (k_max p) i j).
    unfold k_max, kk, ll. rewrite Hn. change (l p) with (k p).
    split; now apply k_entry_bound.
Qed.

Lemma anti_alias_extremes_witness :
  (forall i j, anti_alias (set_AA_FAC 0 source_params) (fun _ _ => C1)
                 (k_max (set_AA_FAC 0 source_params)) i j = C0)
  /\ anti_alias (set_AA_FAC 128 source_params) (fun _ _ => C1)
       (k_max (set_AA_FAC 128 source_params)) 0%nat 0%nat = C1.
Proof.
  split.
  - intros i j.
    apply (proj1 (anti_alias_extremes (set_AA_FAC 0 source_params)));
      reflexivity.
  - apply (proj2 (anti_alias_extremes (set_AA_FAC 128 source_params)) eq_refl
             (fun _ _ => C1) 0%nat 0%nat); unfold nn; simpl; lia.
Defined.

(** * The zero wavenumber *)

Lemma Cabs_nonneg (a : C) : 0 <= Cabs a.
Proof. unfold Cabs. apply sqrt_pos. Qed.

(** C5 (amended): on a grid with at least two points per axis exactly one cell has
    [kk = ll = 0], and [ksq] is 1 there; [ksq] is non-zero at every cell,
    so [rksq] is a genuine reciprocal, it lies in (0, 1], and the Poisson
    solve [-rksq * zt] is the exact quotient [-zt / ksq], no larger in
    modulus than [zt], at every mode and for every field [zt]. *)
Theorem zero_mode_safety (p : params) :
  ((2 <= N p)%Z ->
   exists i0 j0, (i0 < nn p)%nat /\ (j0 < nn p)%nat
     /\ kk p i0 j0 = 0 /\ ll p i0 j0 = 0 /\ ksq p i0 j0 = 1
     /\ forall i j, (i < nn p)%nat -> (j < nn p)%nat ->
          kk p i j = 0 -> ll p i j = 0 -> i = i0 /\ j = j0)
  /\ (forall i j,
        ksq p i j <> 0 /\ rksq p i j * ksq p i j = 1 /\ 0 < rksq p i j <= 1)
  /\ (forall (s : state) i j,
        Cmul (RtoC (ksq p i j)) (step_psi_hat p s i j) = Copp (zt s i j)
        /\ Cabs (step_psi_hat p s i j) <= Cabs (zt s i j)).
Proof.
  split; [|split].
  - intros HN. destruct (k_zero_index p HN) as [i0 [Hi0 [Hz Hu]]].
    exists i0, i0. repeat split; try assumption.
    + now apply ksq_at_zero.
    + now apply Hu.
    + now apply Hu.
  - intros i j. pose proof (ksq_pos p i j). repeat split.
    + lra.
    + apply rksq_ksq.
    + apply rksq_bounds.
    + apply rksq_bounds.
  - intros s i j. unfold step_psi_hat. split.
    + pose proof (rksq_ksq p i j) as E.
      destruct (zt s i j) as [x y].
      apply C_eq; unfold Cmul, Copp, RtoC, Re, Im; simpl.
      * replace (ksq p i j * (- rksq p i j * x - 0 * y) - 0 * (- rksq p i j * y + 0 * x))
          with (- (rksq p i j * ksq p i j) * x) by ring.
        rewrite E. ring.
      * replace (ksq p i j * (- rksq p i j * y + 0 * x) + 0 * (- rksq p i j * x - 0 * y))
          with (- (rksq p i j * ksq p i j) * y) by ring.
        rewrite E. ring.
    + rewrite Cabs_scal, Rabs_Ropp.
      pose proof (rksq_bounds p i j) as [H0 H1].
      rewrite Rabs_right by lra.
      pose proof (Cabs_nonneg (zt s i j)). nra.
Qed.

(** C5 (as stated) fails on the grid of one point, which the set-up code
    accepts: there [k = l = [-dk]] and no cell has [kk = ll = 0]. *)
Lemma no_zero_cell_one_point :
  ~ exists i j, (i < nn (set_N 1 source_params))%nat
                /\ (j < nn (set_N 1 source_params))%nat
                /\ kk (set_N 1 source_params) i j = 0
                /\ ll (set_N 1 source_params) i j = 0.
Proof.
  intros [i [j [Hi [Hj [Hk _]]]]].
  change (nn (set_N 1 source_params)) with 1%nat in Hi, Hj.
  assert (j = 0%nat) by lia. subst j.
  unfold kk in Hk. rewrite nth_k in Hk by (unfold nn; simpl; lia).
  change (- n (set_N 1 source_params) / 2 + Z.of_nat 0)%Z with (-1)%Z in Hk.
  pose proof dk_pos. lra.
Qed.

Lemma zero_mode_safety_witness :
  exists i0 j0, kk source_params i0 j0 = 0 /\ ll source_params i0 j0 = 0
                /\ ksq source_params i0 j0 = 1.
Proof.
  assert (HN : (2 <= N source_params)%Z) by (simpl; lia).
  destruct (proj1 (zero_mode_safety source_params) HN)
    as [i0 [j0 [_ [_ [Hk [Hl [Hq _]]]]]]].
  exists i0, j0. exact (conj Hk (conj Hl Hq)).
Defined.

(** * Dissipation at the zero wavenumber *)

Lemma integrate_zt_ (p : params) (s : state) (i j : nat) :
  zt_ (snd (integrate p s)) i j
  = Cmul (leapfrog (_zt s) (step_rhs p s) (dt (snd (integrate p s))) i j)
         (RtoC (del4 p i j)).
Proof. reflexivity. Qed.

Lemma integrate_zt (p : params) (s : state) :
  zt (snd (integrate p s)) = zt_ (snd (integrate p s)).
Proof. reflexivity. Qed.

(** C10: at a cell with [kk = ll = 0] the entry of [ksq] is 1, so [del4]
    there is [1 / (1 + nu * dt)] with [dt] the set-up timestep; it lies
    strictly between 0 and 1 when [nu] and [dt] are positive, and every
    step multiplies the leapfrog value of that coefficient by it. *)
Theorem del4_zero_mode (p : params) (i j : nat) :
  kk p i j = 0 -> ll p i j = 0 ->
  del4 p i j = 1 / (1 + nu p * dt_setup p)
  /\ (0 < nu p -> 0 < dt_setup p -> 0 < del4 p i j < 1)
  /\ forall s : state,
       zt_ (snd (integrate p s)) i j
       = Cmul (leapfrog (_zt s) (step_rhs p s) (dt (snd (integrate p s))) i j)
              (RtoC (1 / (1 + nu p * dt_setup p)))
       /\ zt (snd (integrate p s)) i j = zt_ (snd (integrate p s)) i j.
Proof.
  intros Hk Hl.
  assert (E : del4 p i j = 1 / (1 + nu p * dt_setup p)).
  { unfold del4. rewrite (ksq_at_zero p i j Hk Hl). f_equal. ring. }
  split; [exact E | split].
  - intros Hnu Hdt. rewrite E.
    assert (H : 0 < nu p * dt_setup p) by now apply Rmult_lt_0_compat.
    split.
    + apply Rdiv_lt_0_compat; lra.
    + apply (Rmult_lt_reg_r (1 + nu p * dt_setup p)); [lra|].
      unfold Rdiv. rewrite Rmult_assoc, Rinv_l by lra. lra.
  - intros s. split; [now rewrite integrate_zt_, E | now rewrite integrate_zt].
Qed.

Lemma nu_source_pos : 0 < nu source_params.
Proof.
  unfold nu, domain. change (tau source_params) with (1 / 10).
  change (n source_params / 3)%Z with 42%Z.
  pose proof PI_RGT_0 as Hpi.
  apply Rdiv_lt_0_compat; [|lra].
  apply pow_lt. apply Rdiv_lt_0_compat; lra.
Qed.

Lemma dt_setup_source : dt_setup source_params = 1 / 20.
Proof. unfold dt_setup. change (IZR (nx source_params)) with 128. field. Qed.

Lemma del4_zero_mode_witness :
  0 < del4 source_params 64%nat 64%nat < 1.
Proof.
  apply (del4_zero_mode source_params 64%nat 64%nat).
  - rewrite kk_source by lia. change (Z.of_nat 64 - 64)%Z with 0%Z. ring.
  - rewrite ll_source by lia. change (Z.of_nat 64 - 64)%Z with 0%Z. ring.
  - exact nu_source_pos.
  - rewrite dt_setup_source. lra.
Defined.

(** * The wavenumber arrays *)

(** C8 (amended): [k] and [l] are the same array of length [n]; its
    entries are the consecutive integers from [(-n) // 2] up to
    [n // 2 - 1] times [dk = 2 pi / domain], in increasing order with
    spacing [dk].  For even [n] every entry but the first has its opposite
    in the array; the first entry, [-(n/2) dk], has not. *)
Theorem wavenumber_arrays (p : params) :
  length (k p) = nn p
  /\ l p = k p
  /\ (forall w, In w (k p) <->
        exists a : Z, (- n p / 2 <= a < n p / 2)%Z /\ w = IZR a * dk)
  /\ (forall i, (i < nn p)%nat ->
        nth i (k p) 0 = IZR (- n p / 2 + Z.of_nat i) * dk)
  /\ (forall i, (S i < nn p)%nat ->
        nth (S i) (k p) 0 - nth i (k p) 0 = dk
        /\ nth i (k p) 0 < nth (S i) (k p) 0)
  /\ (Z.even (N p) = true ->
      forall i, (0 < i < nn p)%nat -> In (- nth i (k p) 0) (k p))
  /\ (Z.even (N p) = true -> (0 < N p)%Z ->
      In (nth 0 (k p) 0) (k p) /\ ~ In (- nth 0 (k p) 0) (k p)).
Proof.
  pose proof dk_pos as Hd.
  split; [apply length_k | split; [reflexivity | split; [apply In_k | split]]].
  { intros i Hi. now apply nth_k. }
  split.
  { intros i Hi. rewrite !nth_k by lia.
    rewrite Nat2Z.inj_succ. unfold Z.succ. rewrite !plus_IZR. split; nra. }
  split.
  - intros He i Hi. rewrite nth_k by lia. apply In_k.
    exists (- (- n p / 2 + Z.of_nat i))%Z. split.
    + apply Z.even_spec in He. destruct He as [h Hh].
      unfold nn, n in *. rewrite Hh in *. Z.div_mod_to_equations. lia.
    + rewrite opp_IZR. ring.
  - intros He HN. split.
    + apply nth_In. rewrite length_k. unfold nn, n. lia.
    + rewrite nth_k by (unfold nn, n; lia). rewrite In_k.
      intros [a [Ha E]].
      replace (- (IZR (- n p / 2 + Z.of_nat 0) * dk))
        with (IZR (- (- n p / 2 + Z.of_nat 0)) * dk) in E
        by (rewrite opp_IZR; ring).
      apply IZR_dk_inj in E.
      apply Z.even_spec in He. destruct He as [h Hh].
      unfold n in *. rewrite Hh in *. Z.div_mod_to_equations. lia.
Qed.

Lemma wavenumber_arrays_witness :
  In (- nth 1 (k source_params) 0) (k source_params)
  /\ ~ In (- nth 0 (k source_params) 0) (k source_params).
Proof.
  pose proof (wavenumber_arrays source_params)
    as [_ [_ [_ [_ [_ [Hsym Hfirst]]]]]].
  split.
  - apply (Hsym eq_refl 1%nat). unfold nn; simpl; lia.
  - apply (Hfirst eq_refl). reflexivity.
Defined.

(** C8 (as stated) fails: with the source's [N = 128] the array [k] holds
    [-64 dk] but not [64 dk], so it is not symmetric around zero. *)
Lemma k_not_symmetric :
  In (IZR (-64) * dk) (k source_params)
  /\ ~ In (- (IZR (-64) * dk)) (k source_params).
Proof.
  split.
  - apply In_k. exists (-64)%Z. split; [|reflexivity].
    change (-64 <= -64 < 64)%Z. lia.
  - rewrite In_k. intros [a [Ha E]].
    replace (- (IZR (-64) * dk)) with (IZR 64 * dk) in E by ring.
    apply IZR_dk_inj in E. subst a.
    change (n source_params) with 128%Z in Ha.
    change (128 / 2)%Z with 64%Z in Ha. lia.
Qed.

(** * One time step *)

Lemma integrate_courant (p : params) (s : state) :
  fst (integrate p s)
  = courant_number (nn p) (step_psix p s) (step_psiy p s) (dx p) (dt s).
Proof. reflexivity. Qed.

Lemma integrate_z (p : params) (s : state) :
  z (snd (integrate p s)) = ift (nn p) (zt s).
Proof. reflexivity. Qed.

(** The timestep a call leaves, as the source's [if]/[elif] reads. *)
Lemma integrate_dt (p : params) (s : state) :
  dt (snd (integrate p s))
  = if Rgt_dec (fst (integrate p s)) (SLOWDN_AT_C p) then 9 / 10 * dt s
    else if (if Rlt_dec (fst (integrate p s)) (SPEEDUP_AT_C p) then true else false)
            && ALLOW_SPEEDUP p
         then 11 / 10 * dt s
         else dt s.
Proof. reflexivity. Qed.

Lemma integrate_dt_cases (p : params) (s : state) :
  dt (snd (integrate p s)) = 9 / 10 * dt s
  \/ (dt (snd (integrate p s)) = 11 / 10 * dt s /\ ALLOW_SPEEDUP p = true)
  \/ dt (snd (integrate p s)) = dt s.
Proof.
  rewrite integrate_dt.
  destruct (Rgt_dec _ _); [now left|].
  destruct (Rlt_dec _ _); destruct (ALLOW_SPEEDUP p); simpl; auto.
Qed.

Lemma integrate_leapfrog_filter_aux (p : params) (s : state) (i j : nat) :
  zt_ (snd (integrate p s)) i j
  = Cmul (Cadd (_zt s i j)
               (Cmul (RtoC (2 * dt (snd (integrate p s)))) (step_rhs p s i j)))
         (RtoC (del4 p i j))
  /\ _zt (snd (integrate p s)) i j
     = Cadd (zt s i j)
            (Cmul (RtoC raw_filter_nu)
                  (Cadd (Csub (zt_ (snd (integrate p s)) i j)
                              (Cmul (RtoC 2) (zt s i j)))
                        (_zt s i j)))
  /\ zt (snd (integrate p s)) i j = zt_ (snd (integrate p s)) i j.
Proof. repeat split; reflexivity. Qed.

(** C1: a call of [integrate] on [(zt_prev, zt, dt)] computes the
    provisional field [(zt_prev + 2 dt' rhs) * del4], with [dt'] the
    timestep this same call leaves and [rhs] built from the Poisson solve,
    the anti-aliased transform of the Jacobian and the beta term; the new
    previous field is the Robert-Asselin filter
    [zt + 0.01 (zt_next - 2 zt + zt_prev)] and the new current field is the
    provisional one. *)
Theorem integrate_leapfrog_filter (p : params) (s : state) (i j : nat) :
  zt_ (snd (integrate p s)) i j
  = Cmul (Cadd (_zt s i j)
               (Cmul (RtoC (2 * dt (snd (integrate p s)))) (step_rhs p s i j)))
         (RtoC (del4 p i j))
  /\ _zt (snd (integrate p s)) i j
     = Cadd (zt s i j)
            (Cmul (RtoC (1 / 100))
                  (Cadd (Csub (zt_ (snd (integrate p s)) i j)
                              (Cmul (RtoC 2) (zt s i j)))
                        (_zt s i j)))
  /\ zt (snd (integrate p s)) i j = zt_ (snd (integrate p s)) i j.
Proof. exact (integrate_leapfrog_filter_aux p s i j). Qed.

(** C2: the Courant number a call returns is
    [(max|psix| + max|psiy|) * dt / dx] from the velocities of this step
    and the timestep held at entry; above [SLOWDN_AT_C] the timestep
    becomes 0.9 of it, else below [SPEEDUP_AT_C] with the speed-up flag
    set it becomes 1.1 of it, else it is unchanged; and the leapfrog
    advance of this same call uses the updated timestep. *)
Theorem courant_adaptation (p : params) (s : state) :
  fst (integrate p s) = step_courant p s
  /\ (step_courant p s > SLOWDN_AT_C p ->
      dt (snd (integrate p s)) = 9 / 10 * dt s)
  /\ (~ step_courant p s > SLOWDN_AT_C p ->
      step_courant p s < SPEEDUP_AT_C p -> ALLOW_SPEEDUP p = true ->
      dt (snd (integrate p s)) = 11 / 10 * dt s)
  /\ (~ step_courant p s > SLOWDN_AT_C p ->
      ~ step_courant p s < SPEEDUP_AT_C p \/ ALLOW_SPEEDUP p = false ->
      dt (snd (integrate p s)) = dt s)
  /\ (forall i j,
        zt_ (snd (integrate p s)) i j
        = Cmul (leapfrog (_zt s) (step_rhs p s) (dt (snd (integrate p s))) i j)
               (RtoC (del4 p i j))).
Proof.
  assert (Ec : fst (integrate p s) = step_courant p s).
  { rewrite integrate_courant. unfold courant_number, step_courant.
    now rewrite Rplus_comm. }
  split; [exact Ec|].
  assert (Ed := integrate_dt p s). rewrite Ec in Ed.
  split; [|split; [|split]].
  - intros Hs. rewrite Ed.
    destruct (Rgt_dec (step_courant p s) (SLOWDN_AT_C p)); [reflexivity | contradiction].
  - intros Hs Hu Ha. rewrite Ed, Ha.
    destruct (Rgt_dec (step_courant p s) (SLOWDN_AT_C p)); [contradiction|].
    destruct (Rlt_dec (step_courant p s) (SPEEDUP_AT_C p)); [reflexivity | contradiction].
  - intros Hs Hn. rewrite Ed.
    destruct (Rgt_dec (step_courant p s) (SLOWDN_AT_C p)); [contradiction|].
    destruct (Rlt_dec (step_courant p s) (SPEEDUP_AT_C p)) as [Hu | Hu];
      destruct Hn as [Hn | Hn]; try contradiction; try reflexivity.
    now rewrite Hn.
  - intros i j. apply integrate_zt_.
Qed.

(** * The fluid at rest *)

Lemma np_max_zero (m : nat) (a : rfield) :
  (forall i j, (i < m)%nat -> (j < m)%nat -> a i j = 0) -> np_max m a = 0.
Proof.
  intros H.
  assert (Hall : forall x, In x (flat m a) -> x = 0).
  { intros x Hx. unfold flat in Hx. apply in_flat_map in Hx.
    destruct Hx as [i [Hi Hx]]. apply in_map_iff in Hx.
    destruct Hx as [j [<- Hj]]. apply in_seq in Hi, Hj. apply H; lia. }
  unfold np_max. destruct (flat m a) as [|x xs]; [reflexivity|].
  assert (Hx : x = 0) by (apply Hall; now left).
  assert (Hxs : forall y, In y xs -> y = 0) by (intros y Hy; apply Hall; now right).
  clear Hall. subst x. induction xs as [|y ys IH]; [reflexivity|]. simpl.
  rewrite (Hxs y) by now left.
  rewrite Rmax_left by lra. apply IH. intros y' Hy'. apply Hxs. now right.
Qed.

Section Rest.

Variable p : params.
Variable s : state.
Hypothesis Hrest : quiescent p s.

Lemma rest_psi_hat (i j : nat) :
  (i < nn p)%nat -> (j < nn p)%nat -> step_psi_hat p s i j = C0.
Proof.
  intros Hi Hj. unfold step_psi_hat.
  destruct Hrest as [_ [Hzt _]]. rewrite (Hzt i j Hi Hj). unfold fzero. ring.
Qed.

Lemma rest_psix : feq (nn p) (step_psix p s) fzero.
Proof.
  unfold step_psix. apply ift_zero. intros i j Hi Hj.
  rewrite rest_psi_hat by assumption. unfold fzero. ring.
Qed.

Lemma rest_psiy : feq (nn p) (step_psiy p s) fzero.
Proof.
  unfold step_psiy. apply ift_zero. intros i j Hi Hj.
  rewrite rest_psi_hat by assumption. unfold fzero. ring.
Qed.

Lemma rest_zx : feq (nn p) (step_zx p s) fzero.
Proof.
  unfold step_zx. apply ift_zero. intros i j Hi Hj.
  destruct Hrest as [_ [Hzt _]]. rewrite (Hzt i j Hi Hj). unfold fzero. ring.
Qed.

Lemma rest_zy : feq (nn p) (step_zy p s) fzero.
Proof.
  unfold step_zy. apply ift_zero. intros i j Hi Hj.
  destruct Hrest as [_ [Hzt _]]. rewrite (Hzt i j Hi Hj). unfold fzero. ring.
Qed.

Lemma rest_jacobian : feq (nn p) (step_jacobian p s) fzero.
Proof.
  intros i j Hi Hj. unfold step_jacobian.
  rewrite (rest_psix i j), (rest_psiy i j), (rest_zx i j), (rest_zy i j)
    by assumption.
  unfold fzero. ring.
Qed.

Lemma rest_rhs (i j : nat) :
  (i < nn p)%nat -> (j < nn p)%nat -> step_rhs p s i j = C0.
Proof.
  intros Hi Hj. unfold step_rhs, anti_alias.
  rewrite rest_psi_hat by assumption.
  rewrite (ft_zero (nn p) _ rest_jacobian i j Hi Hj). unfold fzero.
  destruct (aa_mask p (k_max p) i j); ring.
Qed.

Lemma rest_courant : fst (integrate p s) = 0.
Proof.
  rewrite integrate_courant. unfold courant_number.
  rewrite !np_max_zero.
  - unfold Rdiv. ring.
  - intros i j Hi Hj. rewrite (rest_psix i j Hi Hj). apply Cabs_0.
  - intros i j Hi Hj. rewrite (rest_psiy i j Hi Hj). apply Cabs_0.
Qed.

Lemma rest_step : quiescent p (snd (integrate p s)).
Proof.
  assert (Hnext : feq (nn p) (zt_ (snd (integrate p s))) fzero).
  { intros i j Hi Hj. rewrite integrate_zt_. unfold leapfrog.
    rewrite rest_rhs by assumption.
    destruct Hrest as [Hprev _]. rewrite (Hprev i j Hi Hj). unfold fzero. ring. }
  repeat split.
  - intros i j Hi Hj.
    destruct (integrate_leapfrog_filter_aux p s i j) as [_ [E _]]. rewrite E.
    rewrite (Hnext i j Hi Hj).
    destruct Hrest as [Hprev [Hzt _]].
    rewrite (Hprev i j Hi Hj), (Hzt i j Hi Hj). unfold fzero. ring.
  - now rewrite integrate_zt.
  - exact Hnext.
  - rewrite integrate_z. apply ift_zero. now destruct Hrest as [_ [Hzt _]].
Qed.

End Rest.

Lemma at_rest_quiescent (p : params) (t : R) : quiescent p (at_rest t).
Proof. repeat split; intros i j _ _; reflexivity. Qed.

Lemma steps_S (p : params) (t : nat) (s : state) :
  steps p (S t) s
  = (fst (integrate p (snd (steps p t s))) :: fst (steps p t s),
     snd (integrate p (snd (steps p t s)))).
Proof.
  simpl. destruct (steps p t s) as [cs s']. simpl.
  now destruct (integrate p s').
Qed.

Lemma steps_dt_no_speedup (p : params) (s : state) (t : nat) :
  ALLOW_SPEEDUP p = false -> 0 <= dt s ->
  0 <= dt (snd (steps p t s)) <= dt s.
Proof.
  intros Hoff Hdt. induction t as [|t [IH1 IH2]]; [simpl; lra|].
  rewrite steps_S. cbn [snd].
  destruct (integrate_dt_cases p (snd (steps p t s))) as [E | [[_ Ha] | E]];
    [rewrite E; lra | congruence | rewrite E; lra].
Qed.

(** C6 (amended): with [ALLOW_SPEEDUP] off, from a state whose fields are
    all identically zero, any number [t] of consecutive calls of
    [integrate] each return the Courant number 0 and leave [zt],
    [zt_prev], [zt_next] and [z] identically zero; the timestep never
    grows past its initial value on the way. *)
Theorem quiescent_invariant (p : params) (s : state) (t : nat) :
  ALLOW_SPEEDUP p = false -> quiescent p s ->
  length (fst (steps p t s)) = t
  /\ (forall c, In c (fst (steps p t s)) -> c = 0)
  /\ quiescent p (snd (steps p t s))
  /\ (0 <= dt s -> 0 <= dt (snd (steps p t s)) <= dt s).
Proof.
  intros Hoff Hs.
  assert (H : length (fst (steps p t s)) = t
              /\ (forall c, In c (fst (steps p t s)) -> c = 0)
              /\ quiescent p (snd (steps p t s))).
  { induction t as [|t [IHl [IHc IHq]]].
    - simpl. repeat split; try apply Hs. intros c [].
    - rewrite steps_S. simpl. split; [now rewrite IHl | split].
      + intros c [<- | Hc]; [now apply rest_courant | now apply IHc].
      + now apply rest_step. }
  destruct H as [Hl [Hc Hq]]. repeat split; try assumption; try apply Hq.
  - now apply steps_dt_no_speedup.
  - now apply steps_dt_no_speedup.
Qed.

Lemma quiescent_invariant_witness :
  length (fst (steps source_params 3 (at_rest (1 / 20)))) = 3%nat
  /\ (forall c, In c (fst (steps source_params 3 (at_rest (1 / 20)))) -> c = 0)
  /\ quiescent source_params (snd (steps source_params 3 (at_rest (1 / 20)))).
Proof.
  destruct (quiescent_invariant source_params (at_rest (1 / 20)) 3 eq_refl
              (at_rest_quiescent source_params (1 / 20)))
    as [Hl [Hc [Hq _]]].
  exact (conj Hl (conj Hc Hq)).
Defined.

(** C6 (as stated) fails with [ALLOW_SPEEDUP] on.  From rest with the
    source's [N = 128] the Courant number 0 is below [SPEEDUP_AT_C], so
    every call multiplies the timestep by 1.1.  In binary64 the first 7471
    calls return 0 and leave the coefficient 0; in call 7472 the timestep
    has passed half the largest double, [2.0 * dt] is Inf and the leapfrog
    value [0 + Inf * 0] is NaN; seven calls later the timestep itself is
    Inf. *)
Lemma rest_lost_with_speedup :
  forallb Binary64.still
    (fst (Binary64.rest_calls64 true Binary64.beta_source Binary64.dx_source
            7471 Binary64.dt_source)) = true
  /\ PrimFloat.is_nan
       (snd (hd (PrimFloat.zero, PrimFloat.zero)
               (fst (Binary64.rest_calls64 true Binary64.beta_source
                       Binary64.dx_source 7472 Binary64.dt_source)))) = true
  /\ PrimFloat.is_infinity
       (snd (Binary64.rest_calls64 true Binary64.beta_source
               Binary64.dx_source 7479 Binary64.dt_source)) = true.
Proof. vm_compute. repeat split. Qed.

(** With [ALLOW_SPEEDUP] off the same run stays at rest with the same
    timestep, here over 20000 calls. *)
Lemma rest_kept_without_speedup :
  forallb Binary64.still
    (fst (Binary64.rest_calls64 false Binary64.beta_source Binary64.dx_source
            20000 Binary64.dt_source)) = true
  /\ PrimFloat.eqb
       (snd (Binary64.rest_calls64 false Binary64.beta_source
               Binary64.dx_source 20000 Binary64.dt_source))
       Binary64.dt_source = true.
Proof. vm_compute. split; reflexivity. Qed.

(** ** A grid of one point

    With [N = 1] every transform is the identity and [k = l = [-dk]], so a
    step can be evaluated by hand. *)

Lemma ift_one_point (a : cfield) : ift 1 a 0%nat 0%nat = a 0%nat 0%nat.
Proof.
  unfold ift, ifftn, along_axis0, along_axis1, ifft, fftshift.
  change (roll_index 1 0) with 0%nat. simpl csum. simpl INR.
  replace (2 * PI * 0 / 1) with 0 by field. rewrite cis_0.
  replace (/ 1) with 1 by field.
  change (RtoC 1) with C1. ring.
Qed.

Lemma np_max_one_point (a : rfield) : np_max 1 a = a 0%nat 0%nat.
Proof. reflexivity. Qed.

Lemma kk_one_point : kk (set_N 1 source_params) 0%nat 0%nat = - dk.
Proof.
  unfold kk. rewrite nth_k by (unfold nn; simpl; lia).
  change (- n (set_N 1 source_params) / 2 + Z.of_nat 0)%Z with (-1)%Z. ring.
Qed.

Lemma ll_one_point : ll (set_N 1 source_params) 0%nat 0%nat = - dk.
Proof. exact kk_one_point. Qed.

(** Unit vorticity on the one-point grid with [dt = 10]: the velocities
    have modulus [1 / (4 pi)] each and [dx = 1], so the Courant number is
    [5 / pi]. *)
Lemma courant_one_point :
  step_courant (set_N 1 source_params) (uniform C1 10) = 5 / PI.
Proof.
  pose proof PI_RGT_0 as Hpi.
  unfold step_courant. change (nn (set_N 1 source_params)) with 1%nat.
  rewrite !np_max_one_point. unfold step_psix, step_psiy.
  rewrite !ift_one_point. unfold step_psi_hat, ik, il, rksq, ksq, ksq_raw.
  rewrite kk_one_point, ll_one_point, dk_eq.
  destruct (Req_dec_T _ _) as [E | E]; [exfalso; nra|].
  simpl zt. simpl dt. unfold dx, domain.
  change (IZR (nx (set_N 1 source_params))) with 1.
  assert (Habs :
    Cabs (Cmul (Cmul Ci (RtoC (- (2 * PI))))
               (Cmul (RtoC (- (1 / ((- (2 * PI)) ^ 2 + (- (2 * PI)) ^ 2)))) C1))
    = 1 / (4 * PI)).
  { unfold Cabs, Cmul, Ci, RtoC, C1, Re, Im; simpl.
    match goal with
    | |- sqrt ?x = _ =>
        replace x with ((1 / (4 * PI)) * (1 / (4 * PI))) by (field; lra)
    end.
    apply sqrt_square. apply Rlt_le, Rdiv_lt_0_compat; lra. }
  rewrite Habs. field. lra.
Qed.

(** At rest the Courant number is 0 and the source's thresholds keep the
    timestep; unit vorticity on the one-point grid with [dt = 10] has
    Courant number [5 / pi > 0.8] and the timestep is reduced to 9. *)
Lemma courant_adaptation_witness :
  dt (snd (integrate source_params (at_rest (1 / 20)))) = 1 / 20
  /\ dt (snd (integrate (set_N 1 source_params) (uniform C1 10))) = 9 / 10 * 10.
Proof.
  split.
  - destruct (courant_adaptation source_params (at_rest (1 / 20)))
      as [Ec [_ [_ [Hkeep _]]]].
    rewrite <- Ec, rest_courant in Hkeep by apply at_rest_quiescent.
    apply Hkeep; [simpl; lra | now right].
  - destruct (courant_adaptation (set_N 1 source_params) (uniform C1 10))
      as [_ [Hslow _]].
    apply Hslow. rewrite courant_one_point. simpl.
    pose proof PI_RGT_0 as Hpi. pose proof PI_4 as Hpi4.
    apply Rlt_gt. apply (Rmult_lt_reg_r PI); [lra|].
    unfold Rdiv at 2. rewrite Rmult_assoc, Rinv_l by lra. lra.
Defined.

(** * Set-up *)

Section Setup.

Variable p : params.
Variable random_sample : rfield.

Lemma ICS_lookup (name : string) :
  ICS p random_sample !! name
  = if decide (name = "spot") then Some (spot_ic p)
    else if decide (name = "random") then Some (random_ic random_sample)
    else None.
Proof.
  unfold ICS, initial.
  destruct (decide (name = "spot")) as [-> | Hs].
  - now rewrite lookup_insert_eq.
  - rewrite lookup_insert_ne by congruence.
    destruct (decide (name = "random")) as [-> | Hr].
    + now rewrite lookup_insert_eq.
    + rewrite lookup_insert_ne by congruence. apply lookup_empty.
Qed.

Lemma ICS_unregistered (name : string) :
  ICS p random_sample !! name = None <-> name <> "spot" /\ name <> "random".
Proof.
  rewrite ICS_lookup.
  destruct (decide (name = "spot")); destruct (decide (name = "random"));
    split; intros H; try discriminate; try tauto; destruct H; contradiction.
Qed.

Lemma setup_unregistered :
  ICS p random_sample !! IC p = None ->
  exists e, setup p random_sample = inl e
            /\ ((0 < N p)%Z -> e = NameError "Error").
Proof.
  intros H. unfold setup, nx, n. rewrite H.
  destruct (Z.eqb_spec (N p) 0) as [E0 | E0].
  - eexists; split; [reflexivity | lia].
  - destruct (Z.ltb_spec (N p) 0) as [El | El].
    + eexists; split; [reflexivity | lia].
    + eexists; split; reflexivity.
Qed.

Lemma setup_registered :
  (0 < N p)%Z -> (IC p = "spot" \/ IC p = "random") ->
  exists s, setup p random_sample = inr s /\ dt s = dt_setup p.
Proof.
  intros HN Hic. unfold setup, nx, n.
  destruct (Z.eqb_spec (N p) 0) as [E0 | E0]; [lia|].
  destruct (Z.ltb_spec (N p) 0) as [El | El]; [lia|].
  rewrite ICS_lookup.
  destruct Hic as [-> | ->]; simpl; eexists; split; reflexivity.
Qed.

End Setup.

(** C9: when the configured initial-condition name is not in the
    registry, the set-up code ends with an exception; the script then
    makes no call of [integrate], however long it is left to run, and no
    initial state is produced. *)
Theorem unknown_ic_aborts (p : params) (random_sample : rfield) :
  ICS p random_sample !! IC p = None ->
  exists e, setup p random_sample = inl e
            /\ (forall t, run p random_sample t = inl e)
            /\ ((0 < N p)%Z -> e = NameError "Error").
Proof.
  intros H. destruct (setup_unregistered p random_sample H) as [e [He Hn]].
  exists e. split; [exact He | split; [|exact Hn]].
  intros t. unfold run. now rewrite He.
Qed.

Lemma unknown_ic_aborts_witness :
  exists e, forall t,
    run (set_IC "blob" source_params) (fun _ _ => 0) t = inl e.
Proof.
  destruct (unknown_ic_aborts (set_IC "blob" source_params) (fun _ _ => 0))
    as [e [_ [Hrun _]]].
  - apply ICS_unregistered. split; discriminate.
  - exists e. exact Hrun.
Defined.

(** * Further properties of the transforms *)

Lemma fftshift_ext (m : nat) (a b : cfield) :
  feq m a b -> feq m (fftshift m a) (fftshift m b).
Proof.
  intros H i j Hi Hj. unfold fftshift. apply H; apply roll_index_lt; lia.
Qed.

Lemma ift_ft_grid (m : nat) (F : cfield) :
  Nat.even m = true -> feq m (ift m (ft m F)) F.
Proof.
  intros He i j Hi Hj. unfold ift, ft.
  rewrite (ifftn_ext m _ (fftn m F)) by now apply fftshift_involutive.
  now apply ifftn_fftn.
Qed.

Lemma ft_ift_grid (m : nat) (G : cfield) :
  Nat.even m = true -> feq m (ft m (ift m G)) G.
Proof.
  intros He i j Hi Hj. unfold ft, ift.
  rewrite (fftshift_ext m _ (fftshift m G)) by (try assumption; apply fftn_ifftn).
  now apply fftshift_involutive.
Qed.

(** X1: on an even grid [ft] also undoes [ift]: a spectral field taken to
    physical space and back is unchanged. *)
Theorem ft_ift_even (m : nat) (G : cfield) :
  Nat.even m = true -> feq m (ft m (ift m G)) G.
Proof. exact (ft_ift_grid m G). Qed.

Lemma ft_ift_even_witness :
  feq 128 (ft 128 (ift 128 (fun i j => (INR i, INR j)))) (fun i j => (INR i, INR j)).
Proof. apply (ft_ift_even 128 (fun i j => (INR i, INR j))). reflexivity. Defined.

Lemma fft_at_0 (m : nat) (a : nat -> C) : fft m a 0 = csum m a.
Proof.
  unfold fft. apply csum_ext. intros j _. rewrite Nat.mul_0_r. simpl INR.
  replace (- (2 * PI * 0 / INR m)) with 0 by (unfold Rdiv; ring).
  rewrite cis_0. ring.
Qed.

Lemma fftn_at_0 (m : nat) (F : cfield) :
  fftn m F 0%nat 0%nat = csum m (fun i => csum m (fun j => F i j)).
Proof.
  unfold fftn, along_axis0, along_axis1. rewrite fft_at_0.
  apply csum_ext. intros i _. apply fft_at_0.
Qed.

Lemma roll_index_half (m : nat) : (0 < m)%nat -> roll_index m (m / 2) = 0%nat.
Proof.
  intros Hm. unfold roll_index.
  assert (m / 2 <= m)%nat by (apply Nat.Div0.div_le_upper_bound; lia).
  replace (m / 2 + (m - m / 2))%nat with m by lia.
  apply Nat.Div0.mod_same.
Qed.

(** The cell of the zero wavenumber, on an even and on an odd grid. *)
Lemma k_zero_even (p : params) (j : nat) :
  Z.even (N p) = true -> (j < nn p)%nat -> nth j (k p) 0 = 0 ->
  j = (nn p / 2)%nat.
Proof.
  intros He Hj E. rewrite nth_k in E by exact Hj.
  pose proof dk_pos.
  assert (E' : IZR (- n p / 2 + Z.of_nat j) = 0) by nra.
  apply eq_IZR in E'. apply Z.even_spec in He. destruct He as [h Hh].
  unfold nn, n in *. rewrite Hh in *.
  assert (Hj' : Z.of_nat j = h) by (Z.div_mod_to_equations; lia).
  assert (h >= 0)%Z by lia.
  replace (Z.to_nat (2 * h)) with (2 * Z.to_nat h)%nat by lia.
  rewrite Nat.mul_comm, Nat.div_mul by lia. lia.
Qed.

Lemma k_zero_odd (p : params) (j : nat) :
  Z.odd (N p) = true -> (j < nn p)%nat -> nth j (k p) 0 = 0 ->
  j = ((nn p + 1) / 2)%nat.
Proof.
  intros Ho Hj E. rewrite nth_k in E by exact Hj.
  pose proof dk_pos.
  assert (E' : IZR (- n p / 2 + Z.of_nat j) = 0) by nra.
  apply eq_IZR in E'. apply Z.odd_spec in Ho. destruct Ho as [h Hh].
  unfold nn, n in *. rewrite Hh in *.
  assert (Hj' : Z.of_nat j = (h + 1)%Z) by (Z.div_mod_to_equations; lia).
  assert (h >= 0)%Z by lia.
  replace (Z.to_nat (2 * h + 1) + 1)%nat with ((Z.to_nat h + 1) * 2)%nat by lia.
  rewrite Nat.div_mul by lia. lia.
Qed.

(** X2: on an even grid the coefficient that [ft] leaves at the cell with
    [kk = ll = 0] is the sum of the physical field over the grid: the
    wavenumber mesh and the shifted transform agree on where the mean
    mode sits. *)
Theorem ft_zero_cell_is_sum (p : params) (F : cfield) (i j : nat) :
  Z.even (N p) = true -> (i < nn p)%nat -> (j < nn p)%nat ->
  kk p i j = 0 -> ll p i j = 0 ->
  ft (nn p) F i j = csum (nn p) (fun r => csum (nn p) (fun c => F r c)).
Proof.
  intros He Hi Hj Hk Hl.
  rewrite (k_zero_even p j He Hj Hk), (k_zero_even p i He Hi Hl).
  unfold ft, fftshift. rewrite roll_index_half by lia. apply fftn_at_0.
Qed.

Lemma ft_zero_cell_is_sum_witness :
  ft (nn source_params) (fun _ _ => C1) 64%nat 64%nat
  = csum (nn source_params) (fun r => csum (nn source_params) (fun c => C1)).
Proof.
  apply (ft_zero_cell_is_sum source_params (fun _ _ => C1) 64 64).
  - reflexivity.
  - rewrite nn_source; lia.
  - rewrite nn_source; lia.
  - rewrite kk_source by lia. change (Z.of_nat 64 - 64)%Z with 0%Z. ring.
  - rewrite ll_source by lia. change (Z.of_nat 64 - 64)%Z with 0%Z. ring.
Defined.

(** X3: on an odd grid of at least three points the two disagree: the cell
    with [kk = ll = 0] receives the transform's coefficient of index
    (1, 1), not the sum of the field. *)
Theorem ft_zero_cell_odd (p : params) (F : cfield) (i j : nat) :
  Z.odd (N p) = true -> (i < nn p)%nat -> (j < nn p)%nat ->
  kk p i j = 0 -> ll p i j = 0 ->
  ft (nn p) F i j = fftn (nn p) F 1%nat 1%nat.
Proof.
  intros Ho Hi Hj Hk Hl.
  assert (Hr : forall q, (q < nn p)%nat -> q = ((nn p + 1) / 2)%nat ->
                         roll_index (nn p) q = 1%nat).
  { intros q Hq Eq. unfold roll_index.
    apply Z.odd_spec in Ho. destruct Ho as [h Hh].
    assert (Hnn : nn p = (2 * Z.to_nat h + 1)%nat) by (unfold nn, n in *; lia).
    rewrite Hnn in *.
    assert (Hq2 : q = (Z.to_nat h + 1)%nat).
    { rewrite Eq. replace (2 * Z.to_nat h + 1 + 1)%nat
        with ((Z.to_nat h + 1) * 2)%nat by lia. apply Nat.div_mul. lia. }
    assert (Hhalf : ((2 * Z.to_nat h + 1) / 2 = Z.to_nat h)%nat)
      by (symmetry; apply (Nat.div_unique _ 2 _ 1); lia).
    rewrite Hhalf, Hq2.
    replace (Z.to_nat h + 1 + (2 * Z.to_nat h + 1 - Z.to_nat h))%nat
      with (1 + 1 * (2 * Z.to_nat h + 1))%nat by lia.
    rewrite Nat.Div0.mod_add. apply Nat.mod_small. lia. }
  unfold ft, fftshift.
  rewrite (Hr i Hi (k_zero_odd p i Ho Hi Hl)), (Hr j Hj (k_zero_odd p j Ho Hj Hk)).
  reflexivity.
Qed.

Lemma ft_zero_cell_odd_witness :
  ft (nn (set_N 3 source_params)) (fun _ _ => C1) 2%nat 2%nat
  = fftn (nn (set_N 3 source_params)) (fun _ _ => C1) 1%nat 1%nat.
Proof.
  assert (Hz : nth 2 (k (set_N 3 source_params)) 0 = 0).
  { rewrite nth_k by (unfold nn; simpl; lia).
    change (- n (set_N 3 source_params) / 2 + Z.of_nat 2)%Z with 0%Z. ring. }
  apply (ft_zero_cell_odd (set_N 3 source_params) (fun _ _ => C1) 2 2).
  - reflexivity.
  - unfold nn; simpl; lia.
  - unfold nn; simpl; lia.
  - exact Hz.
  - exact Hz.
Defined.

(** ** Linearity *)

Lemma fft_linear (m : nat) (c : C) (a b : nat -> C) (q : nat) :
  fft m (fun j => Cadd (Cmul c (a j)) (b j)) q
  = Cadd (Cmul c (fft m a q)) (fft m b q).
Proof.
  unfold fft. rewrite <- csum_scal_l, <- csum_add. apply csum_ext.
  intros j _. ring.
Qed.

Lemma ifft_linear (m : nat) (c : C) (a b : nat -> C) (q : nat) :
  ifft m (fun j => Cadd (Cmul c (a j)) (b j)) q
  = Cadd (Cmul c (ifft m a q)) (ifft m b q).
Proof.
  unfold ifft.
  rewrite (csum_ext m _ (fun r =>
    Cadd (Cmul c (Cmul (a r) (cis (2 * PI * INR (q * r) / INR m))))
         (Cmul (b r) (cis (2 * PI * INR (q * r) / INR m)))))
    by (intros r _; ring).
  rewrite csum_add, csum_scal_l. ring.
Qed.

Lemma fftn_linear (m : nat) (c : C) (a b : cfield) (i j : nat) :
  fftn m (fun r q => Cadd (Cmul c (a r q)) (b r q)) i j
  = Cadd (Cmul c (fftn m a i j)) (fftn m b i j).
Proof.
  unfold fftn, along_axis0, along_axis1.
  rewrite <- fft_linear. apply fft_ext. intros r _. apply fft_linear.
Qed.

Lemma ifftn_linear (m : nat) (c : C) (a b : cfield) (i j : nat) :
  ifftn m (fun r q => Cadd (Cmul c (a r q)) (b r q)) i j
  = Cadd (Cmul c (ifftn m a i j)) (ifftn m b i j).
Proof.
  unfold ifftn, along_axis0, along_axis1.
  rewrite <- ifft_linear. apply ifft_ext. intros r _. apply ifft_linear.
Qed.

Lemma ft_linear_grid (m : nat) (c : C) (a b : cfield) (i j : nat) :
  ft m (fun r q => Cadd (Cmul c (a r q)) (b r q)) i j
  = Cadd (Cmul c (ft m a i j)) (ft m b i j).
Proof. unfold ft, fftshift. apply fftn_linear. Qed.

Lemma ift_linear_grid (m : nat) (c : C) (a b : cfield) (i j : nat) :
  ift m (fun r q => Cadd (Cmul c (a r q)) (b r q)) i j
  = Cadd (Cmul c (ift m a i j)) (ift m b i j).
Proof. unfold ift. rewrite <- ifftn_linear. reflexivity. Qed.

(** X4: [ft] and [ift] are linear over the complex numbers, on a grid of
    any size: the transform of [c * a + b] is [c] times the transform of
    [a] plus the transform of [b]. *)
Theorem ft_ift_linear (m : nat) (c : C) (a b : cfield) (i j : nat) :
  ft m (fun r q => Cadd (Cmul c (a r q)) (b r q)) i j
  = Cadd (Cmul c (ft m a i j)) (ft m b i j)
  /\ ift m (fun r q => Cadd (Cmul c (a r q)) (b r q)) i j
     = Cadd (Cmul c (ift m a i j)) (ift m b i j).
Proof. split; [apply ft_linear_grid | apply ift_linear_grid]. Qed.

Lemma fftn_ext_ft (m : nat) (a b : cfield) :
  feq m a b -> forall i j, ft m a i j = ft m b i j.
Proof. intros H i j. unfold ft, fftshift. now apply fftn_ext. Qed.

Lemma ft_opp_grid (m : nat) (a : cfield) (i j : nat) :
  ft m (fun r q => Copp (a r q)) i j = Copp (ft m a i j).
Proof.
  rewrite (fftn_ext_ft m (fun r q => Copp (a r q))
             (fun r q => Cadd (Cmul (Copp C1) (a r q)) C0)).
  - rewrite ft_linear_grid.
    unfold ft at 2, fftshift. rewrite fftn_zero by (intros ? ? _ _; reflexivity).
    ring.
  - intros r q _ _. ring.
Qed.

(** X5: the velocity that [velocity] derives from any streamfunction is
    divergence-free: on an even grid, [ik] times the transform of [u] plus
    [il] times the transform of [v] vanishes at every cell. *)
Theorem velocity_divergence_free (p : params) (psit : cfield) (i j : nat) :
  Nat.even (nn p) = true -> (i < nn p)%nat -> (j < nn p)%nat ->
  Cadd (Cmul (ik p i j) (ft (nn p) (fst (velocity p psit)) i j))
       (Cmul (il p i j) (ft (nn p) (snd (velocity p psit)) i j)) = C0.
Proof.
  intros He Hi Hj. unfold velocity, grad. simpl fst. simpl snd.
  rewrite ft_opp_grid, !ft_ift_grid by assumption. ring.
Qed.

Lemma velocity_divergence_free_witness :
  Cadd (Cmul (ik source_params 3%nat 5%nat)
             (ft (nn source_params)
                 (fst (velocity source_params (fun i j => (INR i, INR j)))) 3%nat 5%nat))
       (Cmul (il source_params 3%nat 5%nat)
             (ft (nn source_params)
                 (snd (velocity source_params (fun i j => (INR i, INR j)))) 3%nat 5%nat))
  = C0.
Proof.
  apply (velocity_divergence_free source_params (fun i j => (INR i, INR j)) 3%nat 5%nat).
  - reflexivity.
  - rewrite nn_source; lia.
  - rewrite nn_source; lia.
Defined.

(** * Diagnostics *)

(** X6: [enstrophy] is half the squared modulus of each coefficient: the
    product [0.5 * zt * conj(zt)] has no imaginary part for [np.real] to
    drop, the result is never negative, and it is zero only where the
    coefficient is zero. *)
Theorem enstrophy_half_square (zt : cfield) (i j : nat) :
  Im (Cmul (Cmul (RtoC (1 / 2)) (zt i j)) (Cconj (zt i j))) = 0
  /\ enstrophy zt i j = 1 / 2 * (Cabs (zt i j) * Cabs (zt i j))
  /\ 0 <= enstrophy zt i j
  /\ (enstrophy zt i j = 0 <-> zt i j = C0).
Proof.
  unfold enstrophy, Cabs. destruct (zt i j) as [x y].
  unfold Cmul, Cconj, RtoC, C0, Re, Im; simpl.
  assert (Hs : 0 <= x * x + y * y) by nra.
  rewrite sqrt_sqrt by exact Hs.
  split; [ring | split; [ring | split; [nra|]]].
  split.
  - intros H. assert (x = 0) by nra. assert (y = 0) by nra. now subst.
  - intros H. injection H as -> ->. ring.
Qed.

(** * The time filter *)

(** X7: the Robert-Asselin filter leaves a field that changes linearly in
    time untouched: when [prev = curr - d] and [new = curr + d] the
    filtered value is [curr], whatever the coefficient [nu]. *)
Theorem raw_filter_linear_in_time (prev curr new d : cfield) (nu : R) (i j : nat) :
  prev i j = Csub (curr i j) (d i j) ->
  new i j = Cadd (curr i j) (d i j) ->
  raw_filter prev curr new nu i j = curr i j.
Proof.
  intros Hp Hn. unfold raw_filter. rewrite Hp, Hn.
  destruct (curr i j) as [x y], (d i j) as [u v].
  apply C_eq; unfold Cadd, Csub, Cmul, RtoC, Re, Im; simpl; ring.
Qed.

Lemma raw_filter_linear_in_time_witness :
  raw_filter (fun _ _ => RtoC 1) (fun _ _ => RtoC 3) (fun _ _ => RtoC 5)
             raw_filter_nu 0%nat 0%nat = RtoC 3.
Proof.
  apply (raw_filter_linear_in_time (fun _ _ => RtoC 1) (fun _ _ => RtoC 3)
           (fun _ _ => RtoC 5) (fun _ _ => RtoC 2) raw_filter_nu 0 0).
  - apply C_eq; unfold Csub, RtoC, Re, Im; simpl; ring.
  - apply C_eq; unfold Cadd, RtoC, Re, Im; simpl; ring.
Defined.

(** * The Courant number *)

Lemma fold_Rmax_ge_init (xs : list R) (x : R) : x <= fold_left Rmax xs x.
Proof.
  revert x. induction xs as [|y ys IH]; intros x; simpl; [lra|].
  eapply Rle_trans; [apply (Rmax_l x y) | apply IH].
Qed.

Lemma fold_Rmax_ge_elem (xs : list R) (x y : R) :
  In y xs -> y <= fold_left Rmax xs x.
Proof.
  revert x. induction xs as [|w ws IH]; intros x Hy; simpl; [destruct Hy|].
  destruct Hy as [-> | Hy].
  - eapply Rle_trans; [apply (Rmax_r x y) | apply fold_Rmax_ge_init].
  - now apply IH.
Qed.

Lemma fold_Rmax_In (xs : list R) (x : R) : In (fold_left Rmax xs x) (x :: xs).
Proof.
  revert x. induction xs as [|y ys IH]; intros x; simpl; [now left|].
  destruct (IH (Rmax x y)) as [E | Hin].
  - unfold Rmax in E at 1. destruct (Rle_dec x y).
    + right; left. exact E.
    + left. exact E.
  - right; right. exact Hin.
Qed.

Lemma In_flat (m : nat) (a : rfield) (x : R) :
  In x (flat m a) <-> exists i j, (i < m)%nat /\ (j < m)%nat /\ x = a i j.
Proof.
  unfold flat. rewrite in_flat_map. split.
  - intros [i [Hi Hx]]. apply in_map_iff in Hx. destruct Hx as [j [<- Hj]].
    apply in_seq in Hi, Hj. exists i, j. repeat split; lia.
  - intros [i [j [Hi [Hj ->]]]]. exists i. split; [apply in_seq; lia|].
    apply in_map_iff. exists j. split; [reflexivity | apply in_seq; lia].
Qed.

Lemma np_max_upper (m : nat) (a : rfield) (i j : nat) :
  (i < m)%nat -> (j < m)%nat -> a i j <= np_max m a.
Proof.
  intros Hi Hj.
  assert (Hin : In (a i j) (flat m a)) by (apply In_flat; eauto).
  unfold np_max. destruct (flat m a) as [|x xs]; [destruct Hin|].
  destruct Hin as [<- | Hin]; [apply fold_Rmax_ge_init | now apply fold_Rmax_ge_elem].
Qed.

Lemma np_max_attained (m : nat) (a : rfield) :
  (0 < m)%nat -> exists i j, (i < m)%nat /\ (j < m)%nat /\ np_max m a = a i j.
Proof.
  intros Hm. apply In_flat. unfold np_max.
  assert (Hne : In (a 0%nat 0%nat) (flat m a)).
  { apply In_flat. exists 0%nat, 0%nat. repeat split; lia. }
  destruct (flat m a) as [|x xs]; [destruct Hne|]. apply fold_Rmax_In.
Qed.

(** X8: on a non-empty grid with [dx > 0] and [dt >= 0], the Courant
    number is never negative, it bounds [(|psix[i,j]| + |psiy[i',j']|) *
    dt / dx] for every pair of cells, and the bound is attained at some
    pair of cells. *)
Theorem courant_number_bounds (m : nat) (psix psiy : cfield) (dx dt : R) :
  (0 < m)%nat -> 0 < dx -> 0 <= dt ->
  0 <= courant_number m psix psiy dx dt
  /\ (forall i j i' j', (i < m)%nat -> (j < m)%nat -> (i' < m)%nat -> (j' < m)%nat ->
        (Cabs (psix i j) + Cabs (psiy i' j')) * dt / dx
        <= courant_number m psix psiy dx dt)
  /\ (exists i j i' j', (i < m)%nat /\ (j < m)%nat /\ (i' < m)%nat /\ (j' < m)%nat
        /\ courant_number m psix psiy dx dt
           = (Cabs (psix i j) + Cabs (psiy i' j')) * dt / dx).
Proof.
  intros Hm Hdx Hdt. unfold courant_number.
  assert (Hinv : 0 < / dx) by now apply Rinv_0_lt_compat.
  assert (Hscale : forall u v, u <= v -> u * dt / dx <= v * dt / dx).
  { intros u v Huv. unfold Rdiv. apply Rmult_le_compat_r; [lra|]. nra. }
  assert (Hbound : forall i j i' j',
            (i < m)%nat -> (j < m)%nat -> (i' < m)%nat -> (j' < m)%nat ->
            Cabs (psix i j) + Cabs (psiy i' j')
            <= np_max m (fun i j => Cabs (psiy i j))
               + np_max m (fun i j => Cabs (psix i j))).
  { intros i j i' j' Hi Hj Hi' Hj'.
    pose proof (np_max_upper m (fun i j => Cabs (psix i j)) i j Hi Hj).
    pose proof (np_max_upper m (fun i j => Cabs (psiy i j)) i' j' Hi' Hj').
    simpl in *. lra. }
  split; [|split].
  - pose proof (Hbound 0%nat 0%nat 0%nat 0%nat Hm Hm Hm Hm) as H0.
    pose proof (Cabs_nonneg (psix 0%nat 0%nat)).
    pose proof (Cabs_nonneg (psiy 0%nat 0%nat)).
    replace 0 with (0 * dt / dx) by (unfold Rdiv; ring).
    apply Hscale. lra.
  - intros i j i' j' Hi Hj Hi' Hj'. apply Hscale. now apply Hbound.
  - destruct (np_max_attained m (fun i j => Cabs (psix i j)) Hm)
      as [i [j [Hi [Hj Ex]]]].
    destruct (np_max_attained m (fun i j => Cabs (psiy i j)) Hm)
      as [i' [j' [Hi' [Hj' Ey]]]].
    exists i, j, i', j'. repeat split; try assumption.
    rewrite Ex, Ey. unfold Rdiv. ring.
Qed.

Lemma courant_number_bounds_witness :
  0 <= courant_number 2 (fun i j => (INR i, INR j)) (fun _ _ => C1) (1 / 2) 1.
Proof.
  apply (courant_number_bounds 2 (fun i j => (INR i, INR j)) (fun _ _ => C1)
           (1 / 2) 1); [lia | lra | lra].
Defined.

(** * The timestep over a run *)

Lemma steps_snd_S (p : params) (t : nat) (s : state) :
  snd (steps p (S t) s) = snd (integrate p (snd (steps p t s))).
Proof. now rewrite steps_S. Qed.

(** X9: a positive timestep stays positive: after [t] calls of
    [integrate] it lies between [0.9^t] and [1.1^t] times the initial one,
    and when [ALLOW_SPEEDUP] is off it never exceeds the initial one. *)
Theorem timestep_bounds (p : params) (s : state) (t : nat) :
  0 < dt s ->
  (9 / 10) ^ t * dt s <= dt (snd (steps p t s)) <= (11 / 10) ^ t * dt s
  /\ 0 < dt (snd (steps p t s))
  /\ (ALLOW_SPEEDUP p = false -> dt (snd (steps p t s)) <= dt s).
Proof.
  intros Hdt.
  assert (Hlo : forall t, 0 < (9 / 10) ^ t) by (intros; apply pow_lt; lra).
  assert (Hhi : forall t, 0 < (11 / 10) ^ t) by (intros; apply pow_lt; lra).
  induction t as [|t [[IH1 IH2] [IH3 IH4]]].
  - simpl. repeat split; lra.
  - rewrite steps_snd_S. simpl pow.
    pose proof (Hlo t). pose proof (Hhi t).
    destruct (integrate_dt_cases p (snd (steps p t s))) as [E | [[E Ha] | E]];
      rewrite E; repeat split; try nra.
    + intros Hoff. specialize (IH4 Hoff). lra.
    + intros Hoff. congruence.
    + intros Hoff. specialize (IH4 Hoff). lra.
Qed.

Lemma timestep_bounds_witness :
  0 < dt (snd (steps (set_N 1 source_params) 5 (uniform C1 10)))
  /\ dt (snd (steps (set_N 1 source_params) 5 (uniform C1 10))) <= 10.
Proof.
  destruct (timestep_bounds (set_N 1 source_params) (uniform C1 10) 5)
    as [_ [Hpos Hle]]; [simpl; lra|].
  split; [exact Hpos | apply Hle; reflexivity].
Defined.

(** * Dissipation *)

Lemma nu_pos (p : params) : (3 <= N p)%Z -> 0 < tau p -> 0 < nu p.
Proof.
  intros HN Htau. unfold nu, domain.
  assert (H3 : (1 <= n p / 3)%Z) by (unfold n; Z.div_mod_to_equations; lia).
  apply IZR_le in H3. pose proof PI_RGT_0 as Hpi.
  apply Rdiv_lt_0_compat; [|exact Htau].
  apply pow_lt. apply Rdiv_lt_0_compat; [lra | nra].
Qed.

Lemma dt_setup_pos (p : params) : (0 < N p)%Z -> 0 < dt_setup p.
Proof.
  intros HN. unfold dt_setup, nx, n. apply IZR_lt in HN.
  apply Rdiv_lt_0_compat; lra.
Qed.

Lemma Cabs_scal_r (a : C) (r : R) : Cabs (Cmul a (RtoC r)) = Cabs a * Rabs r.
Proof.
  replace (Cmul a (RtoC r)) with (Cmul (RtoC r) a) by ring.
  rewrite Cabs_scal. ring.
Qed.

(** X10: for [N >= 3] and [tau > 0] the dissipation operator [del4] lies
    strictly between 0 and 1 at every cell, is smaller where [ksq] is
    larger, and a step never enlarges a coefficient past its leapfrog
    value: [|zt_next| = del4 * |leapfrog value| <= |leapfrog value|]. *)
Theorem del4_contracts (p : params) :
  (3 <= N p)%Z -> 0 < tau p ->
  (forall i j, 0 < del4 p i j < 1)
  /\ (forall i j i' j', ksq p i j <= ksq p i' j' -> del4 p i' j' <= del4 p i j)
  /\ (forall (s : state) i j,
        Cabs (zt_ (snd (integrate p s)) i j)
        = del4 p i j
          * Cabs (leapfrog (_zt s) (step_rhs p s) (dt (snd (integrate p s))) i j)
        /\ Cabs (zt_ (snd (integrate p s)) i j)
           <= Cabs (leapfrog (_zt s) (step_rhs p s) (dt (snd (integrate p s))) i j)).
Proof.
  intros HN Htau.
  pose proof (nu_pos p HN Htau) as Hnu.
  assert (Hdt : 0 < dt_setup p) by (apply dt_setup_pos; lia).
  assert (Hden : forall i j, 0 < nu p * ksq p i j ^ 2 * dt_setup p).
  { intros i j. pose proof (ksq_ge_1 p i j).
    apply Rmult_lt_0_compat; [|exact Hdt].
    apply Rmult_lt_0_compat; [exact Hnu | apply pow_lt; lra]. }
  assert (Hrange : forall i j, 0 < del4 p i j < 1).
  { intros i j. pose proof (Hden i j). unfold del4. split.
    - apply Rdiv_lt_0_compat; lra.
    - apply (Rmult_lt_reg_r (1 + nu p * ksq p i j ^ 2 * dt_setup p)); [lra|].
      unfold Rdiv. rewrite Rmult_assoc, Rinv_l by lra. lra. }
  split; [exact Hrange | split].
  - intros i j i' j' Hk. unfold del4.
    pose proof (Hden i j). pose proof (Hden i' j').
    pose proof (ksq_ge_1 p i j).
    unfold Rdiv. rewrite !Rmult_1_l. apply Rinv_le_contravar; [lra|].
    assert (ksq p i j ^ 2 <= ksq p i' j' ^ 2) by nra.
    assert (0 < nu p * dt_setup p) by now apply Rmult_lt_0_compat.
    nra.
  - intros s i j. rewrite integrate_zt_, Cabs_scal_r.
    destruct (Hrange i j) as [H0 H1]. rewrite Rabs_right by lra.
    pose proof (Cabs_nonneg
      (leapfrog (_zt s) (step_rhs p s) (dt (snd (integrate p s))) i j)).
    split; [ring | nra].
Qed.

Lemma del4_contracts_witness :
  0 < del4 source_params 0%nat 0%nat < 1.
Proof.
  apply (proj1 (del4_contracts source_params ltac:(simpl; lia) ltac:(simpl; lra))).
Defined.

(** * The Poisson solve and the gradient *)

Lemma ik_sq (p : params) (a : C) (i j : nat) :
  Cmul (ik p i j) (Cmul (ik p i j) a) = Cmul (RtoC (- kk p i j ^ 2)) a.
Proof. unfold ik. destruct a as [x y]. csolve. Qed.

Lemma il_sq (p : params) (a : C) (i j : nat) :
  Cmul (il p i j) (Cmul (il p i j) a) = Cmul (RtoC (- ll p i j ^ 2)) a.
Proof. unfold il. destruct a as [x y]. csolve. Qed.

(** X11: the streamfunction of a step solves the Poisson equation: taking
    the [grad] of [psi_hat] twice along each axis and adding gives back
    [zt] at every cell with a non-zero wavenumber, and gives 0 at the cell
    of the zero wavenumber. *)
Theorem poisson_inverts_laplacian (p : params) (s : state) (i j : nat) :
  (ksq_raw p i j <> 0 ->
   Cadd (fst (grad p (fst (grad p (step_psi_hat p s)))) i j)
        (snd (grad p (snd (grad p (step_psi_hat p s)))) i j) = zt s i j)
  /\ (ksq_raw p i j = 0 ->
      Cadd (fst (grad p (fst (grad p (step_psi_hat p s)))) i j)
           (snd (grad p (snd (grad p (step_psi_hat p s)))) i j) = C0).
Proof.
  unfold grad; simpl fst; simpl snd. rewrite ik_sq, il_sq.
  unfold step_psi_hat, rksq, ksq.
  destruct (zt s i j) as [x y].
  split; intros H.
  - destruct (Req_dec_T (ksq_raw p i j) 0) as [E | E]; [contradiction|].
    unfold ksq_raw in *.
    apply C_eq; unfold Cadd, Cmul, RtoC, Re, Im; simpl; field;
      intros Hc; apply E; rewrite <- Hc; ring.
  - unfold ksq_raw in H.
    assert (Hk : kk p i j = 0) by nra. assert (Hl : ll p i j = 0) by nra.
    rewrite Hk, Hl.
    apply C_eq; unfold Cadd, Cmul, RtoC, C0, Re, Im; simpl; ring.
Qed.

Lemma poisson_inverts_laplacian_witness :
  Cadd (fst (grad source_params
               (fst (grad source_params (step_psi_hat source_params (uniform C1 1)))))
          0%nat 0%nat)
       (snd (grad source_params
               (snd (grad source_params (step_psi_hat source_params (uniform C1 1)))))
          0%nat 0%nat)
  = C1.
Proof.
  apply (proj1 (poisson_inverts_laplacian source_params (uniform C1 1) 0 0)).
  unfold ksq_raw. rewrite kk_source, ll_source by lia.
  change (Z.of_nat 0 - 64)%Z with (-64)%Z.
  pose proof dk_pos. nra.
Defined.

(** X12: at a cell with [kk = ll = 0] both components of [grad] vanish
    for every spectral field, so the beta term drops out of the right-hand
    side of a step there: it is minus the anti-aliased Jacobian alone. *)
Theorem zero_mode_has_no_gradient (p : params) (i j : nat) :
  kk p i j = 0 -> ll p i j = 0 ->
  (forall phit, fst (grad p phit) i j = C0 /\ snd (grad p phit) i j = C0)
  /\ (forall s : state,
        step_rhs p s i j
        = Copp (anti_alias p (ft (nn p) (step_jacobian p s)) (k_max p) i j)).
Proof.
  intros Hk Hl. split.
  - intros phit. unfold grad, ik, il; simpl. rewrite Hk, Hl.
    destruct (phit i j) as [x y]. split; csolve.
  - intros s. unfold step_rhs, ik. rewrite Hk.
    destruct (anti_alias p (ft (nn p) (step_jacobian p s)) (k_max p) i j) as [u v].
    destruct (step_psi_hat p s i j) as [x y]. csolve.
Qed.

Lemma zero_mode_has_no_gradient_witness :
  fst (grad source_params (fun _ _ => C1)) 64%nat 64%nat = C0.
Proof.
  apply (zero_mode_has_no_gradient source_params 64 64).
  - rewrite kk_source by lia. change (Z.of_nat 64 - 64)%Z with 0%Z. ring.
  - rewrite ll_source by lia. change (Z.of_nat 64 - 64)%Z with 0%Z. ring.
Defined.

(** * More on anti-aliasing *)

Lemma aa_mask_mono (p : params) (c1 c2 : R) (i j : nat) :
  c1 <= c2 -> aa_mask p c2 i j = true -> aa_mask p c1 i j = true.
Proof.
  unfold aa_mask. intros Hc.
  destruct (Rge_dec (Rabs (kk p i j)) c1), (Rge_dec (Rabs (kk p i j)) c2),
           (Rge_dec (Rabs (ll p i j)) c1), (Rge_dec (Rabs (ll p i j)) c2);
    simpl; intros H; try reflexivity; try discriminate; lra.
Qed.

(** X13: truncations nest: truncating at two cutoffs, in either order, is
    the truncation at the smaller one; in particular truncating twice at
    the same cutoff is truncating once. *)
Theorem anti_alias_nested (p : params) (phit : cfield) (c1 c2 : R) (i j : nat) :
  c1 <= c2 ->
  anti_alias p (anti_alias p phit c1) c2 i j = anti_alias p phit c1 i j
  /\ anti_alias p (anti_alias p phit c2) c1 i j = anti_alias p phit c1 i j
  /\ anti_alias p (anti_alias p phit c1) c1 i j = anti_alias p phit c1 i j.
Proof.
  intros Hc. unfold anti_alias.
  pose proof (aa_mask_mono p c1 c2 i j Hc) as Hm.
  destruct (aa_mask p c1 i j), (aa_mask p c2 i j); repeat split; try reflexivity.
  all: discriminate (Hm eq_refl).
Qed.

Lemma anti_alias_nested_witness :
  anti_alias source_params
    (anti_alias source_params (fun _ _ => C1) (k_max source_params))
    (2 * k_max source_params) 0%nat 0%nat
  = anti_alias source_params (fun _ _ => C1) (k_max source_params) 0%nat 0%nat.
Proof.
  apply (anti_alias_nested source_params (fun _ _ => C1)
           (k_max source_params) (2 * k_max source_params) 0 0).
  rewrite k_max_source. pose proof dk_pos. lra.
Defined.

(** * Initial conditions *)

Lemma sqrt_IZR_lt (x d : Z) :
  (0 <= x)%Z -> (0 <= d)%Z -> (sqrt (IZR x) < IZR d <-> (x < d * d)%Z).
Proof.
  intros Hx Hd.
  assert (Hx' : 0 <= IZR x) by now apply IZR_le.
  assert (Hd' : 0 <= IZR d) by now apply IZR_le.
  rewrite <- (sqrt_square (IZR d)) at 1 by exact Hd'.
  rewrite <- mult_IZR. split.
  - intros H. apply lt_IZR. apply sqrt_lt_0_alt in H. exact H.
  - intros H. apply sqrt_lt_1_alt. split; [exact Hx' | now apply IZR_lt].
Qed.

Lemma spot_ppxy_nonneg (d : Z) (i j : nat) :
  (0 <= Z.abs (d - Z.of_nat i) ^ 2 + Z.abs (d * 2 - Z.of_nat j) ^ 2)%Z.
Proof. nia. Qed.

(** X14: for [N >= 0], with [d = N // 4], [spot_ic] writes a real value
    between 0 and 2 at the cells whose squared distance from [(d, 2d)] is
    below [d^2], leaves every other cell as it was, and writes exactly 2
    at the centre [(d, 2d)] when [d > 0]. *)
Theorem spot_ic_shape (p : params) (z : cfield) (i j : nat) :
  (0 <= N p)%Z ->
  ((Z.abs (n p / 4 - Z.of_nat i) ^ 2 + Z.abs (n p / 4 * 2 - Z.of_nat j) ^ 2
    < n p / 4 * (n p / 4))%Z ->
   exists v, spot_ic p z i j = RtoC v /\ 0 <= v <= 2)
  /\ ((n p / 4 * (n p / 4)
       <= Z.abs (n p / 4 - Z.of_nat i) ^ 2 + Z.abs (n p / 4 * 2 - Z.of_nat j) ^ 2)%Z ->
      spot_ic p z i j = z i j)
  /\ ((0 < n p / 4)%Z ->
      spot_ic p z (Z.to_nat (n p / 4)) (Z.to_nat (n p / 4 * 2)) = RtoC 2).
Proof.
  intros HN.
  assert (Hd : (0 <= n p / 4)%Z) by (unfold n; Z.div_mod_to_equations; lia).
  split; [|split].
  - intros Hin. unfold spot_ic.
    destruct (Rlt_dec _ _) as [Hlt | Hge].
    + eexists. split; [reflexivity|].
      match goal with |- 0 <= 2 * cos ?t ^ 2 <= 2 =>
        pose proof (COS_bound t) as [Hc1 Hc2]; nra end.
    + exfalso. apply Hge. apply sqrt_IZR_lt; [apply spot_ppxy_nonneg | exact Hd | exact Hin].
  - intros Hout. unfold spot_ic.
    destruct (Rlt_dec _ _) as [Hlt | Hge]; [|reflexivity].
    apply sqrt_IZR_lt in Hlt; [lia | apply spot_ppxy_nonneg | exact Hd].
  - intros Hpos. unfold spot_ic.
    rewrite !Z2Nat.id by lia.
    replace (Z.abs (n p / 4 - n p / 4) ^ 2
             + Z.abs (n p / 4 * 2 - n p / 4 * 2) ^ 2)%Z with 0%Z
      by (rewrite !Z.sub_diag; reflexivity).
    rewrite sqrt_0. apply IZR_lt in Hpos.
    destruct (Rlt_dec 0 (IZR (n p / 4))) as [_ | Hn]; [|contradiction].
    replace (1 / 2 * PI * (IZR (n p / 4) - 0) / IZR (n p / 4) + 1 / 2 * PI)
      with PI by (field; lra).
    rewrite cos_PI. f_equal. ring.
Qed.

Lemma spot_ic_shape_witness :
  spot_ic source_params fzero 32%nat 64%nat = RtoC 2
  /\ spot_ic source_params fzero 0%nat 0%nat = C0.
Proof.
  destruct (spot_ic_shape source_params fzero 32 64 ltac:(simpl; lia))
    as [_ [_ Hc]].
  destruct (spot_ic_shape source_params fzero 0 0 ltac:(simpl; lia))
    as [_ [Ho _]].
  split.
  - apply Hc. reflexivity.
  - apply Ho. vm_compute. discriminate.
Defined.

(** X15: when every draw of [np.random.random] lies in [0, 1), [random_ic]
    overwrites every cell, whatever it held, with a real value in
    [-1, 1). *)
Theorem random_ic_range (rs : rfield) (z : cfield) (i j : nat) :
  (forall i j, 0 <= rs i j < 1) ->
  Im (random_ic rs z i j) = 0
  /\ -1 <= Re (random_ic rs z i j) < 1
  /\ random_ic rs z i j = random_ic rs fzero i j.
Proof.
  intros H. specialize (H i j). unfold random_ic, RtoC, Re, Im; simpl.
  repeat split; lra.
Qed.

Lemma random_ic_range_witness :
  -1 <= Re (random_ic (fun _ _ => 1 / 2) fzero 0%nat 0%nat) < 1.
Proof.
  apply (random_ic_range (fun _ _ => 1 / 2) fzero 0 0).
  intros _ _. lra.
Defined.

(** * More on set-up and the driver loop *)

Lemma steps_quiescent (p : params) (s : state) (t : nat) :
  quiescent p s ->
  (forall c, In c (fst (steps p t s)) -> c = 0) /\ quiescent p (snd (steps p t s)).
Proof.
  intros Hs. induction t as [|t [IHc IHq]].
  - simpl. split; [intros c [] | exact Hs].
  - rewrite steps_S. simpl. split.
    + intros c [<- | Hc]; [now apply rest_courant | now apply IHc].
    + now apply rest_step.
Qed.

(** X18: on a grid of fewer than four points per axis the "spot" initial
    condition draws nothing ([d = N // 4] is 0): set-up succeeds with an
    identically zero state, and with [ALLOW_SPEEDUP] off the run that
    follows returns the Courant number 0 at every step. *)
Theorem spot_degenerate (p : params) (rs : rfield) :
  (0 < N p < 4)%Z -> IC p = "spot" ->
  exists s0, setup p rs = inr s0
             /\ quiescent p s0
             /\ (ALLOW_SPEEDUP p = false ->
                 forall t, exists cs s,
                   run p rs t = inr (cs, s) /\ (forall c, In c cs -> c = 0)).
Proof.
  intros HN Hic.
  assert (Hspot : forall i j, spot_ic p fzero i j = C0).
  { intros i j. unfold spot_ic.
    assert (Hd : (n p / 4 = 0)%Z) by (unfold n; Z.div_mod_to_equations; lia).
    rewrite Hd. destruct (Rlt_dec _ _) as [Hlt | _]; [|reflexivity].
    pose proof (sqrt_pos (IZR (Z.abs (0 - Z.of_nat i) ^ 2
                               + Z.abs (0 * 2 - Z.of_nat j) ^ 2))). lra. }
  assert (Hget : ICS p rs !! IC p = Some (spot_ic p))
    by (rewrite Hic, ICS_lookup; reflexivity).
  assert (Hset : setup p rs
                 = inr {| _zt := ft (nn p) (spot_ic p fzero);
                          zt := ft (nn p) (spot_ic p fzero);
                          zt_ := ft (nn p) (spot_ic p fzero);
                          z := spot_ic p fzero; dt := dt_setup p |}).
  { unfold setup, nx, n. destruct (Z.eqb_spec (N p) 0); [lia|].
    destruct (Z.ltb_spec (N p) 0); [lia|]. now rewrite Hget. }
  assert (Hq : quiescent p {| _zt := ft (nn p) (spot_ic p fzero);
                              zt := ft (nn p) (spot_ic p fzero);
                              zt_ := ft (nn p) (spot_ic p fzero);
                              z := spot_ic p fzero; dt := dt_setup p |}).
  { assert (Hft : feq (nn p) (ft (nn p) (spot_ic p fzero)) fzero)
      by (apply ft_zero; intros i j _ _; apply Hspot).
    repeat split; simpl; try exact Hft. intros i j _ _. apply Hspot. }
  eexists. split; [exact Hset | split; [exact Hq|]].
  intros _ t. unfold run. rewrite Hset.
  destruct (steps p t _) as [cs s] eqn:E. exists cs, s. split; [reflexivity|].
  pose proof (steps_quiescent p _ t Hq) as [Hc _]. rewrite E in Hc. exact Hc.
Qed.

Lemma spot_degenerate_witness :
  exists s0, setup (set_N 3 source_params) (fun _ _ => 0) = inr s0
             /\ quiescent (set_N 3 source_params) s0
             /\ forall t, exists cs s,
                  run (set_N 3 source_params) (fun _ _ => 0) t = inr (cs, s)
                  /\ (forall c, In c cs -> c = 0).
Proof.
  destruct (spot_degenerate (set_N 3 source_params) (fun _ _ => 0))
    as [s0 [Hs [Hq Hrun]]].
  - simpl. lia.
  - reflexivity.
  - exists s0. exact (conj Hs (conj Hq (Hrun eq_refl))).
Defined.

Lemma Z_even_to_nat (a : Z) :
  (0 <= a)%Z -> Z.even a = true -> Nat.even (Z.to_nat a) = true.
Proof.
  intros Ha He. apply Z.even_spec in He. destruct He as [h ->].
  apply Nat.even_spec. exists (Z.to_nat h). lia.
Qed.

(** X19: the physical field lags the spectral one by a step: every call
    of [integrate] exposes the inverse transform of the spectral field it
    was given, so on an even grid the first call after a successful
    set-up exposes exactly the initial field. *)
Theorem first_step_exposes_initial_field (p : params) (rs : rfield) (s0 : state) :
  Z.even (N p) = true -> setup p rs = inr s0 ->
  feq (nn p) (z (snd (integrate p s0))) (z s0).
Proof.
  intros He Hs. unfold setup, nx, n in Hs.
  destruct (Z.eqb_spec (N p) 0); [discriminate|].
  destruct (Z.ltb_spec (N p) 0); [discriminate|].
  destruct (ICS p rs !! IC p) as [ic_fn|]; [|discriminate].
  injection Hs as <-. rewrite integrate_z. simpl.
  apply ift_ft_grid. apply Z_even_to_nat; [unfold n; lia | exact He].
Qed.

Lemma first_step_exposes_initial_field_witness :
  exists s0, setup source_params (fun _ _ => 0) = inr s0
             /\ feq (nn source_params) (z (snd (integrate source_params s0))) (z s0).
Proof.
  destruct (setup_registered source_params (fun _ _ => 0)) as [s0 [Hs _]];
    [simpl; lia | now left |].
  exists s0. split; [exact Hs|].
  apply (first_step_exposes_initial_field source_params (fun _ _ => 0) s0);
    [reflexivity | exact Hs].
Defined.
